(** * Marketplace search: intent extraction, scoring and ranking

    A shallow embedding of [search_utils.py]: the rule-based intent
    extractor ([extract_intent], [normalize_amenity]), the scorer
    ([final_score]) and the orchestrator ([search_listings]).

    Modelling conventions.
    - A Python [str] is a [string]; each [ascii] stands for the code point
      of the same number, so the model covers the code points 0..255.
    - A Python number is an exact rational [Q]; binary64 rounding and
      overflow are outside the model.
    - A raised exception is the [Raise] outcome of the [result] monad.
    - The sentence-embedding model, scikit-learn's cosine similarity and
      pandas' [sort_values] are external libraries: they are parameters of
      the development, the last one together with its documented contract.
    - [print] calls are dropped. *)

From Stdlib Require Import QArith Qminmax Lqa.
From Stdlib Require Import Ascii String.
From Stdlib Require Import Sorting.Sorted Sorting.Permutation.
From stdpp Require Import gmap strings list.

Local Open Scope string_scope.

(** ** Characters *)

Module Chr.

Definition code (c : ascii) : N := N_of_ascii c.

Definition in_range (lo hi : N) (c : ascii) : bool :=
  ((lo <=? code c) && (code c <=? hi))%N.

(** [[A-Za-z]] *)
Definition is_alpha (c : ascii) : bool :=
  in_range 65 90 c || in_range 97 122 c.

(** [\d]: the only decimal digits below 256 are 0..9. *)
Definition is_digit (c : ascii) : bool := in_range 48 57 c.

(** [\s] of the [regex] module (Unicode White_Space): TAB..CR, SPACE,
    NEL and NO-BREAK SPACE. *)
Definition re_space (c : ascii) : bool :=
  in_range 9 13 c || (code c =? 32)%N || (code c =? 133)%N
  || (code c =? 160)%N.

(** [str.isspace], the set removed by [str.strip()]: as [\s] plus the
    separators FS, GS, RS and US. *)
Definition isspace (c : ascii) : bool :=
  re_space c || in_range 28 31 c.

(** [\w] of the [regex] module: alphabetic, decimal digit or connector
    punctuation. *)
Definition re_word (c : ascii) : bool :=
  is_alpha c || is_digit c || (code c =? 95)%N
  || (code c =? 170)%N || (code c =? 181)%N || (code c =? 186)%N
  || in_range 192 214 c || in_range 216 246 c || in_range 248 255 c.

(** [str.lower] on one code point. *)
Definition lower (c : ascii) : ascii :=
  if in_range 65 90 c || in_range 192 214 c || in_range 216 222 c
  then ascii_of_N (code c + 32)
  else c.

Definition pound : ascii := ascii_of_N 163.

(** The letter A with circumflex, U+00C2. *)
Definition a_circumflex : ascii := ascii_of_N 194.

End Chr.

(** ** Python string operations *)

Module Str.

Fixpoint map (f : ascii -> ascii) (s : string) : string :=
  match s with
  | EmptyString => EmptyString
  | String c s' => String (f c) (map f s')
  end.

(** [s.lower()] *)
Definition lower (s : string) : string := map Chr.lower s.

Fixpoint startswith (p s : string) : bool :=
  match p, s with
  | EmptyString, _ => true
  | String a p', String b s' => if Ascii.eqb a b then startswith p' s' else false
  | String _ _, EmptyString => false
  end.

(** [sub in s] *)
Fixpoint contains (sub s : string) : bool :=
  startswith sub s
  || match s with
     | EmptyString => false
     | String _ s' => contains sub s'
     end.

Fixpoint mem (c : ascii) (s : string) : bool :=
  match s with
  | EmptyString => false
  | String a s' => Ascii.eqb a c || mem c s'
  end.

Fixpoint lstrip (p : ascii -> bool) (s : string) : string :=
  match s with
  | EmptyString => EmptyString
  | String c s' => if p c then lstrip p s' else s
  end.

Fixpoint rstrip (p : ascii -> bool) (s : string) : string :=
  match s with
  | EmptyString => EmptyString
  | String c s' =>
      match rstrip p s' with
      | EmptyString => if p c then EmptyString else String c EmptyString
      | r => String c r
      end
  end.

(** [s.strip()] *)
Definition strip (s : string) : string :=
  rstrip Chr.isspace (lstrip Chr.isspace s).

(** [s.strip(chars)] *)
Definition strip_chars (chars s : string) : string :=
  rstrip (fun c => mem c chars) (lstrip (fun c => mem c chars) s).

(** [s.replace(c, empty)] for a one-character [c] *)
Fixpoint remove (c : ascii) (s : string) : string :=
  match s with
  | EmptyString => EmptyString
  | String a s' => if Ascii.eqb a c then remove c s' else String a (remove c s')
  end.

Fixpoint take (n : nat) (s : string) : string :=
  match n, s with
  | S n', String c s' => String c (take n' s')
  | _, _ => EmptyString
  end.

(** Truth value of a string: empty is false. *)
Definition truthy (s : string) : bool :=
  match s with EmptyString => false | _ => true end.

Fixpoint all (p : ascii -> bool) (s : string) : bool :=
  match s with
  | EmptyString => true
  | String c s' => p c && all p s'
  end.

End Str.

(** ** Exceptions *)

Inductive exn : Type :=
| ZeroDivisionError
| ValueError
| AttributeError.

Inductive result (A : Type) : Type :=
| Ok (a : A)
| Raise (e : exn).

Arguments Ok {A} a.
Arguments Raise {A} e.

Definition bind {A B : Type} (r : result A) (f : A -> result B) : result B :=
  match r with
  | Ok a => f a
  | Raise e => Raise e
  end.

Notation "'let*' x := r 'in' k" := (bind r (fun x => k))
  (at level 10, x name, r at level 100, k at level 200).

(** Row-wise evaluation: the first exception aborts the whole traversal. *)
Fixpoint mapM {A B : Type} (f : A -> result B) (l : list A) : result (list B) :=
  match l with
  | [] => Ok []
  | a :: l' => let* b := f a in let* bs := mapM f l' in Ok (b :: bs)
  end.

(** ** Numbers *)

Module Num.

Definition digit_value (c : ascii) : Z := Z.of_N (Chr.code c) - 48.

(** Value of a run of decimal digits, most significant first. *)
Fixpoint digits (acc : Z) (s : string) : Z :=
  match s with
  | EmptyString => acc
  | String c s' => digits (10 * acc + digit_value c) s'
  end.

Fixpoint pow10 (n : nat) : positive :=
  match n with
  | O => 1
  | S n' => 10 * pow10 n'
  end.

(** Split at the first ".". *)
Fixpoint split_dot (s : string) : string * option string :=
  match s with
  | EmptyString => (EmptyString, None)
  | String c s' =>
      if Ascii.eqb c "." then (EmptyString, Some s')
      else let (i, f) := split_dot s' in (String c i, f)
  end.

(** [float(s)] on plain decimal literals: digits with an optional
    fractional part.  Any other text is a [ValueError] here; the signs,
    exponents, padding and special values that Python also accepts never
    reach the one call site. *)
Definition float (s : string) : result Q :=
  match split_dot s with
  | (i, None) =>
      if Str.truthy i && Str.all Chr.is_digit i
      then Ok (inject_Z (digits 0 i))
      else Raise ValueError
  | (i, Some f) =>
      if (Str.truthy i || Str.truthy f)
         && Str.all Chr.is_digit i && Str.all Chr.is_digit f
      then Ok (Qmake (digits (digits 0 i) f) (pow10 (String.length f)))
      else Raise ValueError
  end.

End Num.

(** ** Regular expressions: a backtracking matcher

    The fragment of the pattern language used by [extract_intent], with the
    matching order of a backtracking engine: alternatives left to right,
    greedy repetition longest first, lazy repetition shortest first. *)

Module Re.

Inductive regex : Type :=
| Eps                                   (* empty pattern *)
| Cls (p : ascii -> bool)               (* one character of a class *)
| Seq (r1 r2 : regex)                   (* r1 r2 *)
| Alt (r1 r2 : regex)                   (* r1|r2 *)
| Star (greedy : bool) (r : regex)      (* r* and r*? *)
| Group (r : regex)                     (* capture group 1 *)
| WordB                                 (* \b *)
| Eos.                                  (* $ *)

(** r+ and r+? *)
Definition Plus (greedy : bool) (r : regex) : regex := Seq r (Star greedy r).

(** r? *)
Definition Opt (r : regex) : regex := Alt r Eps.

(** r{n} *)
Fixpoint Rep (n : nat) (r : regex) : regex :=
  match n with
  | O => Eps
  | S n' => Seq r (Rep n' r)
  end.

(** r1 r2 ... rn *)
Definition Cat (rs : list regex) : regex := foldr Seq Eps rs.

(** One literal character. *)
Definition Chr (c : ascii) : regex := Cls (Ascii.eqb c).

(** A literal word under IGNORECASE: characters are compared after
    lowering. *)
Fixpoint Word_i (w : string) : regex :=
  match w with
  | EmptyString => Eps
  | String c w' =>
      Seq (Cls (fun x => Ascii.eqb (Chr.lower x) (Chr.lower c))) (Word_i w')
  end.

(** A set of characters under IGNORECASE. *)
Definition Set_i (members : string) : regex :=
  Cls (fun x => Str.mem (Chr.lower x) (Str.lower members)).

(** Cursor of the matcher. *)
Record mstate : Type := MState {
  ms_prev : option ascii;      (* character before the cursor *)
  ms_rest : string;            (* text from the cursor on *)
  ms_group : option string     (* text of group 1, once it has closed *)
}.

Definition is_word (o : option ascii) : bool :=
  match o with
  | Some c => Chr.re_word c
  | None => false
  end.

Definition next (s : string) : option ascii :=
  match s with
  | EmptyString => None
  | String c _ => Some c
  end.

Definition orelse {A : Type} (a b : option A) : option A :=
  match a with
  | Some _ => a
  | None => b
  end.

Section Matcher.
Context {A : Type}.

(** One repetition [r*] or [r*?], where [step] matches the body.  An
    iteration must consume text, so the length [n] of the remaining
    text bounds the number of iterations. *)
Fixpoint star_loop (step : mstate -> (mstate -> option A) -> option A)
    (greedy : bool) (k : mstate -> option A) (n : nat) (st : mstate)
    {struct n} : option A :=
  let again :=
    match n with
    | O => None
    | S n' =>
        step st (fun st' =>
          if (String.length (ms_rest st') <? String.length (ms_rest st))%nat
          then star_loop step greedy k n' st'
          else None)
    end in
  if greedy then orelse again (k st) else orelse (k st) again.

(** [m r st k]: match [r] at [st] and hand every way of doing so, in
    priority order, to the continuation [k] until one succeeds. *)
Fixpoint m (r : regex) (st : mstate) (k : mstate -> option A) {struct r}
  : option A :=
  match r with
  | Eps => k st
  | Cls p =>
      match ms_rest st with
      | String c s' =>
          if p c then k (MState (Some c) s' (ms_group st)) else None
      | EmptyString => None
      end
  | Seq r1 r2 => m r1 st (fun st' => m r2 st' k)
  | Alt r1 r2 => orelse (m r1 st k) (m r2 st k)
  | Star greedy r1 =>
      star_loop (m r1) greedy k (String.length (ms_rest st)) st
  | Group r1 =>
      m r1 st (fun st' =>
        k (MState (ms_prev st') (ms_rest st')
             (Some (Str.take (String.length (ms_rest st)
                              - String.length (ms_rest st'))
                      (ms_rest st)))))
  | WordB =>
      if xorb (is_word (ms_prev st)) (is_word (next (ms_rest st)))
      then k st else None
  | Eos =>
      match ms_rest st with
      | EmptyString => k st
      | String c EmptyString => if Ascii.eqb c "010" then k st else None
      | _ => None
      end
  end.
End Matcher.

(** A match object: [m.start()] and [m.group(1)], the latter [None] when
    the group took no part in the match. *)
Record Match : Type := { start : nat; group : option string }.

(** The pattern tried at one position. *)
Definition match_here (r : regex) (prev : option ascii) (s : string)
  : option (option string) :=
  m r (MState prev s None) (fun st => Some (ms_group st)).

(** [re.search]: the first position, left to right, where the pattern
    matches. *)
Fixpoint search_from (r : regex) (prev : option ascii) (s : string) (i : nat)
  : option Match :=
  match match_here r prev s with
  | Some g => Some {| start := i; group := g |}
  | None =>
      match s with
      | EmptyString => None
      | String c s' => search_from r (Some c) s' (S i)
      end
  end.

Definition search (r : regex) (s : string) : option Match :=
  search_from r None s 0.

(** *** What a match is

    [Matches r st st']: the pattern [r] can take the cursor from [st] to
    [st'].  This is the declarative reading of the pattern, without the
    priorities of the engine and without the tests of [\b] and [$]. *)
Inductive Matches : regex -> mstate -> mstate -> Prop :=
| M_Eps st : Matches Eps st st
| M_Cls p pv c s g :
    p c = true ->
    Matches (Cls p) (MState pv (String c s) g) (MState (Some c) s g)
| M_Seq r1 r2 st st1 st2 :
    Matches r1 st st1 -> Matches r2 st1 st2 -> Matches (Seq r1 r2) st st2
| M_Alt_l r1 r2 st st' : Matches r1 st st' -> Matches (Alt r1 r2) st st'
| M_Alt_r r1 r2 st st' : Matches r2 st st' -> Matches (Alt r1 r2) st st'
| M_Star_nil b r st : Matches (Star b r) st st
| M_Star_cons b r st st1 st2 :
    Matches r st st1 -> Matches (Star b r) st1 st2 -> Matches (Star b r) st st2
| M_Group r st st1 :
    Matches r st st1 ->
    Matches (Group r) st
      (MState (ms_prev st1) (ms_rest st1)
         (Some (Str.take (String.length (ms_rest st) - String.length (ms_rest st1))
                  (ms_rest st))))
| M_WordB st : Matches WordB st st
| M_Eos st : Matches Eos st st.

(** The characters a pattern can consume. *)
Fixpoint alphabet (r : regex) (c : ascii) : bool :=
  match r with
  | Cls p => p c
  | Seq r1 r2 | Alt r1 r2 => alphabet r1 c || alphabet r2 c
  | Star _ r1 | Group r1 => alphabet r1 c
  | Eps | WordB | Eos => false
  end.

(** Patterns without a capture group. *)
Fixpoint groupless (r : regex) : bool :=
  match r with
  | Group _ => false
  | Seq r1 r2 | Alt r1 r2 => groupless r1 && groupless r2
  | Star _ r1 => groupless r1
  | Eps | Cls _ | WordB | Eos => true
  end.

End Re.

(** ** Amenity vocabulary *)

Definition key_amenities : list string :=
  [ "hot tub";
    "wifi";
    "kitchen";
    "wine glasses";
    "air conditioning";
    "central heating";
    "microwave";
    "paid street parking off premises";
    "washer";
    "dryer";
    "pets allowed";
    "smoke alarm";
    "private entrance";
    "bathtub";
    "first aid kit";
    "accessible";
    "private patio or balcony" ].

(** The dictionary keeps its insertion order, which [normalize_amenity]
    iterates in. *)
Definition AMENITY_SYNONYMS : list (string * list string) :=
  [ ("hot tub", ["jacuzzi"; "spa"; "hot-tub"]);
    ("wifi", ["internet"; "wireless"]);
    ("air conditioning", ["ac"; "aircon"]);
    ("private patio or balcony", ["balcony"; "terrace"]);
    ("pets allowed", ["pet friendly"; "dog friendly"]);
    ("accessible", ["wheelchair"; "step-free"]) ].

(** [d.get(key, default)] *)
Fixpoint dict_get {V : Type} (d : list (string * V)) (key : string) (default : V) : V :=
  match d with
  | [] => default
  | (k, v) :: d' => if String.eqb k key then v else dict_get d' key default
  end.

(** ** Intent extraction *)

Record Intent : Type := {
  location : option string;
  max_price : option Q;
  amenities : list string
}.

(** [\b(?:in|at)\s+([A-Za-z\s]+?)(?:\s|$|,)] with IGNORECASE *)
Definition loc_pattern : Re.regex :=
  Re.Cat
    [ Re.WordB;
      Re.Alt (Re.Word_i "in") (Re.Word_i "at");
      Re.Plus true (Re.Cls Chr.re_space);
      Re.Group (Re.Plus false (Re.Cls (fun c => Chr.is_alpha c || Chr.re_space c)));
      Re.Alt (Re.Cls Chr.re_space) (Re.Alt Re.Eos (Re.Chr ",")) ].

(** [(?:under|below|max)\s*[Â£$]?(\d+(?:,\d{3})*(?:\.\d+)?)] with
    IGNORECASE; the set holds the three characters U+00C2, U+00A3 and $. *)
Definition price_pattern : Re.regex :=
  Re.Cat
    [ Re.Alt (Re.Word_i "under") (Re.Alt (Re.Word_i "below") (Re.Word_i "max"));
      Re.Star true (Re.Cls Chr.re_space);
      Re.Opt (Re.Set_i (String Chr.a_circumflex (String Chr.pound "$")));
      Re.Group
        (Re.Cat
           [ Re.Plus true (Re.Cls Chr.is_digit);
             Re.Star true (Re.Cat [Re.Chr ","; Re.Rep 3 (Re.Cls Chr.is_digit)]);
             Re.Opt (Re.Cat [Re.Chr "."; Re.Plus true (Re.Cls Chr.is_digit)]) ]) ].

(** [match.group(1)] followed by a method call: a group that took no part
    in the match is [None], and the call on it raises. *)
Definition group1 (mo : Re.Match) : result string :=
  match Re.group mo with
  | Some s => Ok s
  | None => Raise AttributeError
  end.

(** The amenity loop: the set after visiting the names of [names]. *)
Definition found_amenities (names : list string) (user_input : string) : gset string :=
  foldl
    (fun found a =>
       let found :=
         if Str.contains (Str.lower a) (Str.lower user_input)
         then found ∪ {[ a ]} else found in
       foldl
         (fun found syn =>
            if Str.contains (Str.lower syn) (Str.lower user_input)
            then found ∪ {[ a ]} else found)
         found (dict_get AMENITY_SYNONYMS a []))
    ∅ names.

Definition extract_intent (user_input : string) : result Intent :=
  let* loc :=
    match Re.search loc_pattern user_input with
    | Some loc_match => let* s := group1 loc_match in Ok (Some (Str.strip s))
    | None => Ok None
    end in
  let* price :=
    match Re.search price_pattern user_input with
    | Some price_match =>
        let* s := group1 price_match in
        let* v := Num.float (Str.remove "," s) in
        Ok (Some v)
    | None => Ok None
    end in
  Ok {| location := loc;
        max_price := price;
        amenities := elements (found_amenities key_amenities user_input) |}.

(** The two fields that come from a pattern, as total functions of the
    query; [extract_intent_ok] below shows that [extract_intent] computes
    them and raises nothing. *)
Definition location_of (user_input : string) : option string :=
  match Re.search loc_pattern user_input with
  | Some loc_match => option_map Str.strip (Re.group loc_match)
  | None => None
  end.

Definition max_price_of (user_input : string) : option Q :=
  match Re.search price_pattern user_input with
  | Some price_match =>
      match Re.group price_match with
      | Some s =>
          match Num.float (Str.remove "," s) with
          | Ok v => Some v
          | Raise _ => None
          end
      | None => None
      end
  | None => None
  end.

Definition normalize_amenity (user_text : string) : option string :=
  let user_text := Str.lower user_text in
  (fix items (d : list (string * list string)) : option string :=
     match d with
     | [] => None
     | (canonical, variants) :: d' =>
         if Str.contains canonical user_text then Some canonical
         else if existsb (fun v => Str.contains v user_text) variants
              then Some canonical
              else items d'
     end) AMENITY_SYNONYMS.

(** ** Listings and scoring *)

Definition embedding : Type := list Q.

Record Listing : Type := {
  name : string;
  city : string;
  price : Q;
  description_embedding : embedding;
  flags : gmap string Q              (* amenity columns, keyed by name *)
}.

(** A listing annotated with its score. *)
Definition ScoredListing : Type := (Listing * Q)%type.

Definition score (r : ScoredListing) : Q := snd r.

(** [sum(l)] *)
Definition py_sum (l : list Q) : Q := foldl Qplus 0%Q l.

(** [a / b]: a zero divisor is a fault ([ZeroDivisionError] for Python
    numbers; numpy scalars give inf or nan with a warning), kept apart from
    every number. *)
Definition div (a b : Q) : result Q :=
  if Qeq_bool b 0 then Raise ZeroDivisionError else Ok (a / b)%Q.

(** [len(l)] as a number *)
Definition len {A : Type} (l : list A) : Q := inject_Z (Z.of_nat (length l)).

(** [row.get(a, 0)] *)
Definition row_get (row : Listing) (a : string) : Q := default 0%Q (flags row !! a).

(** The steps of [search_listings] before scoring. *)

(** [[a for a in intent.get("amenities", []) if a in key_amenities]] *)
Definition requested (key_amenities : list string) (intent : Intent) : list string :=
  filter (fun a => a ∈ key_amenities) (amenities intent).

(** [if location:] strip white space, then double quotes, then single
    quotes, from both ends. *)
Definition clean_location (location : option string) : option string :=
  match location with
  | Some l =>
      if Str.truthy l
      then Some (Str.strip_chars "'"
                   (Str.strip_chars (String "034" EmptyString) (Str.strip l)))
      else location
  | None => None
  end.

(** [if location: df = df[df["city"].str.lower() == location.lower()]] *)
Definition filter_location (location : option string) (df : list Listing) : list Listing :=
  match location with
  | Some l =>
      if Str.truthy l
      then filter (fun row => Str.lower (city row) = Str.lower l) df
      else df
  | None => df
  end.

(** [if max_price is not None: df = df[df["price"] <= max_price]] *)
Definition filter_price (max_price : option Q) (df : list Listing) : list Listing :=
  match max_price with
  | Some mp => filter (fun row => Qle_bool (price row) mp = true) df
  | None => df
  end.

Section Scoring.

(** scikit-learn's [cosine_similarity] on two vectors. *)
Variable cosine_similarity : embedding -> embedding -> Q.

Definition final_score (row : Listing) (query_embedding : embedding)
    (requested_amenities : list string) (max_price : option Q) : result Q :=
  let semantic_sim := cosine_similarity (description_embedding row) query_embedding in
  let* amenity_sim :=
    match requested_amenities with
    | _ :: _ =>
        let amenity_matches := py_sum (map (row_get row) requested_amenities) in
        div amenity_matches (len requested_amenities)
    | [] => Ok 0%Q
    end in
  let* price_penalty :=
    match max_price with
    | Some mp =>
        if negb (Qle_bool (price row) mp)
        then div (price row - mp) mp
        else Ok 0%Q
    | None => Ok 0%Q
    end in
  Ok (semantic_sim + amenity_sim - price_penalty)%Q.

(** [df['score'] = df.apply(f, axis=1)].  On a frame without rows [apply]
    calls [f] on no row and hands back a copy of the frame; assigning that
    frame to the one column raises [ValueError]. *)
Definition assign_scores (f : Listing -> result Q) (df : list Listing)
  : result (list ScoredListing) :=
  match df with
  | [] => Raise ValueError
  | _ :: _ => let* scores := mapM f df in Ok (zip df scores)
  end.

(** The sentence-embedding model. *)
Variable embed_query : string -> embedding.

(** [df.sort_values("score", ascending=False)] with the default
    algorithm. *)
Variable sort_values : list ScoredListing -> list ScoredListing.

Definition search_listings (df : list Listing) (user_query : string)
    (key_amenities : list string) : result (list ScoredListing) :=
  let* intent := extract_intent user_query in
  let requested_amenities := requested key_amenities intent in
  let max_price := max_price intent in
  let location := clean_location (location intent) in
  let df := filter_location location df in
  let df := filter_price max_price df in
  let query_embedding := embed_query user_query in
  let* df :=
    assign_scores
      (fun row => final_score row query_embedding requested_amenities max_price) df in
  (* Return top 10 results *)
  Ok (take 10 (sort_values df)).

End Scoring.

(** Descending order of scores: [a] may stand before [b]. *)
Definition desc (a b : ScoredListing) : Prop := (score b <= score a)%Q.

(** What the pandas documentation promises of [sort_values] in descending
    order, whatever the algorithm: the rows are rearranged, and no row is
    followed by one with a larger score.  The default algorithm is
    quicksort, which the documentation lists as not stable; nothing is
    assumed here about rows of equal score. *)
Record sort_contract (sort : list ScoredListing -> list ScoredListing) : Prop := {
  sort_perm : forall l, Permutation (sort l) l;
  sort_desc : forall l, StronglySorted desc (sort l)
}.

(** A sorting function that meets the contract, for the concrete
    instances: insertion in front of the rows of smaller or equal score. *)
Fixpoint insert_before (x : ScoredListing) (l : list ScoredListing) : list ScoredListing :=
  match l with
  | [] => [x]
  | y :: l' => if Qle_bool (score y) (score x) then x :: l else y :: insert_before x l'
  end.

Definition sort_stable (l : list ScoredListing) : list ScoredListing :=
  foldr insert_before [] l.

(** ** The dashboard's use of the search ([streamlit_app.py]) *)

(** The intent of a semantic-only search, used when extraction fails. *)
Definition semantic_only : Intent :=
  {| location := None; max_price := None; amenities := [] |}.

(** [try: return extract_intent(query)  except Exception: ...] *)
Definition safe_extract_intent (query : string) : Intent :=
  match extract_intent query with
  | Ok intent => intent
  | Raise _ => semantic_only
  end.

(** A displayed row: a scored listing and its rank. *)
Definition RankedListing : Type := (ScoredListing * nat)%type.

Definition rank (r : RankedListing) : nat := snd r.

Section Dashboard.

Variable cosine_similarity : embedding -> embedding -> Q.
Variable embed_query : string -> embedding.
Variable sort_values : list ScoredListing -> list ScoredListing.

(** The search action: [search_listings], then [head(max_results)], then
    the rank column [range(1, len(top_results) + 1)].  An exception of
    [search_listings] is not caught.  The test [len(top_results) == 0],
    which warns and stops, corresponds to the empty list here. *)
Definition top_results (all_listings : list Listing) (user_query : string)
    (max_results : nat) : result (list RankedListing) :=
  let* top_results :=
    search_listings cosine_similarity embed_query sort_values
      all_listings user_query key_amenities in
  let top_results := take max_results top_results in
  Ok (zip top_results (seq 1 (length top_results))).

End Dashboard.

(* ================================================================== *)
(** * Notions used in the statements *)

(** [sub] occurs in [s]. *)
Definition Substring (sub s : string) : Prop :=
  exists pre post, s = pre +:+ sub +:+ post.

(** [sub] occurs in [s] when case is ignored. *)
Definition Substring_ci (sub s : string) : Prop :=
  Substring (Str.lower sub) (Str.lower s).

(** The query mentions the amenity [a]: its canonical name or one of its
    synonyms occurs in it, case ignored. *)
Definition mentions (q a : string) : Prop :=
  Substring_ci a q \/
  exists syn, syn ∈ dict_get AMENITY_SYNONYMS a [] /\ Substring_ci syn q.

(** The scoring formula as the specification words it. *)
Definition spec_amenity_ratio (row : Listing) (requested_amenities : list string) : Q :=
  match requested_amenities with
  | [] => 0
  | _ => foldr (fun a acc => row_get row a + acc) 0 requested_amenities
         / len requested_amenities
  end%Q.

Definition spec_price_penalty (row : Listing) (max_price : option Q) : Q :=
  match max_price with
  | Some mp => Qmax 0 ((price row - mp) / mp)
  | None => 0
  end%Q.

Definition spec_score (cosine_similarity : embedding -> embedding -> Q)
    (row : Listing) (query_embedding : embedding)
    (requested_amenities : list string) (max_price : option Q) : Q :=
  (cosine_similarity (description_embedding row) query_embedding
   + spec_amenity_ratio row requested_amenities
   - spec_price_penalty row max_price)%Q.

(** The rows that survive the two filters of [search_listings]. *)
Definition surviving (q : string) (df : list Listing) : list Listing :=
  filter_price (max_price_of q)
    (filter_location (clean_location (location_of q)) df).

(** The amenities that [search_listings] scores a query against. *)
Definition requested_of (keys : list string) (q : string) : list string :=
  filter (fun a => a ∈ keys) (elements (found_amenities key_amenities q)).

(** The score of a surviving row, as [final_score] computes it there: no
    price penalty applies. *)
Definition unpenalised (cosine_similarity : embedding -> embedding -> Q)
    (query_embedding : embedding) (requested_amenities : list string)
    (row : Listing) : Q :=
  (cosine_similarity (description_embedding row) query_embedding
   + match requested_amenities with
     | _ :: _ => py_sum (map (row_get row) requested_amenities) / len requested_amenities
     | [] => 0
     end
   - 0)%Q.

Definition scored_rows (cosine_similarity : embedding -> embedding -> Q)
    (embed_query : string -> embedding) (keys : list string)
    (q : string) (df : list Listing) : list ScoredListing :=
  map (fun row =>
         (row, unpenalised cosine_similarity (embed_query q)
                 (requested_of keys q) row))
    (surviving q df).

(** The first match of [r] in [s] starts at position [n]. *)
Definition first_match_at (r : Re.regex) (s : string) (n : nat) : Prop :=
  exists mo, Re.search r s = Some mo /\ Re.start mo = n.

(** The character before the cursor once [pre] has been passed. *)
Fixpoint prev_after (prev : option ascii) (pre : string) : option ascii :=
  match pre with
  | EmptyString => prev
  | String c pre' => prev_after (Some c) pre'
  end.

(** What may follow a location for the capture to stop: the end of the
    text, white space or a comma. *)
Definition ends_word (post : string) : bool :=
  match post with
  | EmptyString => true
  | String c _ => Chr.re_space c || Ascii.eqb c ","
  end.

(** What makes a number go on: a digit, a comma with three digits, or a
    point with a digit. *)
Definition number_goes_on (post : string) : bool :=
  match post with
  | EmptyString => false
  | String c rest =>
      Chr.is_digit c
      || (Ascii.eqb c ","
          && match rest with
             | String d1 (String d2 (String d3 _)) =>
                 Chr.is_digit d1 && Chr.is_digit d2 && Chr.is_digit d3
             | _ => false
             end)
      || (Ascii.eqb c "."
          && match rest with
             | String d _ => Chr.is_digit d
             | EmptyString => false
             end)
  end.

(** The parts of a number after its first digits: [,\d{3}] and [\.\d+]. *)
Definition comma_group : Re.regex :=
  Re.Cat [Re.Chr ","; Re.Rep 3 (Re.Cls Chr.is_digit)].

Definition fraction : Re.regex :=
  Re.Cat [Re.Chr "."; Re.Plus true (Re.Cls Chr.is_digit)].

(** The text "max £200". *)
Definition max_pound_200 : string :=
  String "m" (String "a" (String "x" (String " " (String Chr.pound "200")))).

(** Sample data for the concrete instances below. *)
Module Sample.

Definition similarity (_ _ : embedding) : Q := 1 # 2.

Definition embed (_ : string) : embedding := [].

Definition listing (n c : string) (p : Q) : Listing :=
  {| name := n; city := c; price := p;
     description_embedding := []; flags := ∅ |}.

Definition loft : Listing := listing "loft" "Rome" 120.
Definition attic : Listing := listing "attic" "Rome" 90.

Definition hut : Listing :=
  {| name := "hut"; city := "Oslo"; price := 80;
     description_embedding := []; flags := {[ "wifi" := 1%Q ]} |}.

Definition eleven : list Listing :=
  map (fun p => listing "room" "Rome" (inject_Z p))
    [1; 2; 3; 4; 5; 6; 7; 8; 9; 10; 11]%Z.

End Sample.

(* ================================================================== *)
(** * Facts about strings *)

Lemma app_cons (c : ascii) (s t : string) : String c s +:+ t = String c (s +:+ t).
Proof. reflexivity. Qed.

Lemma app_empty_l (s : string) : EmptyString +:+ s = s.
Proof. reflexivity. Qed.

Lemma app_empty_r (s : string) : s +:+ EmptyString = s.
Proof. induction s as [|c s IH]; [reflexivity|]. by rewrite app_cons, IH. Qed.

Lemma app_assoc_str (s t u : string) : (s +:+ t) +:+ u = s +:+ (t +:+ u).
Proof. induction s as [|c s IH]; [reflexivity|]. by rewrite !app_cons, IH. Qed.

Lemma length_app_str (s t : string) :
  String.length (s +:+ t) = (String.length s + String.length t)%nat.
Proof. induction s as [|c s IH]; [reflexivity|]. rewrite app_cons. simpl. by rewrite IH. Qed.

Lemma take_app_length (w s : string) :
  Str.take (String.length (w +:+ s) - String.length s) (w +:+ s) = w.
Proof.
  rewrite length_app_str.
  replace (String.length w + String.length s - String.length s)%nat
    with (String.length w) by lia.
  induction w as [|c w IH].
  - by destruct s.
  - rewrite app_cons. simpl. by rewrite IH.
Qed.

Lemma lower_app (s t : string) : Str.lower (s +:+ t) = Str.lower s +:+ Str.lower t.
Proof.
  unfold Str.lower. induction s as [|c s IH]; [reflexivity|].
  rewrite app_cons. simpl. by rewrite IH, app_cons.
Qed.

Lemma all_app (p : ascii -> bool) (s t : string) :
  Str.all p (s +:+ t) = Str.all p s && Str.all p t.
Proof.
  induction s as [|c s IH]; [reflexivity|].
  rewrite app_cons. simpl. by rewrite IH, andb_assoc.
Qed.

Lemma all_impl (p q : ascii -> bool) (s : string) :
  (forall c, p c = true -> q c = true) -> Str.all p s = true -> Str.all q s = true.
Proof.
  intros Hpq. induction s as [|c s IH]; [done|]. simpl.
  rewrite !andb_true_iff. intros [? ?]. auto.
Qed.

Lemma startswith_spec (p s : string) :
  Str.startswith p s = true <-> exists post, s = p +:+ post.
Proof.
  revert s. induction p as [|a p IH]; intros s; simpl.
  - split; [eauto|done].
  - destruct s as [|b s].
    + split; [done|]. intros [post H]. by rewrite app_cons in H.
    + destruct (Ascii.eqb_spec a b) as [->|Hne].
      * rewrite IH. split; intros [post H]; exists post.
        -- by rewrite app_cons, H.
        -- rewrite app_cons in H. congruence.
      * split; [done|]. intros [post H]. rewrite app_cons in H. congruence.
Qed.

(** [sub in s] holds exactly when [s] is some text, [sub], some text. *)
Lemma contains_spec (sub s : string) :
  Str.contains sub s = true <-> exists pre post, s = pre +:+ sub +:+ post.
Proof.
  induction s as [|c s IH].
  - simpl. rewrite orb_false_r, startswith_spec. split.
    + intros [post H]. by exists EmptyString, post.
    + intros [[|a pre] [post H]].
      * by exists post.
      * by rewrite app_cons in H.
  - cbn [Str.contains]. rewrite orb_true_iff, startswith_spec, IH. split.
    + intros [[post H]|(pre & post & H)].
      * by exists EmptyString, post.
      * exists (String c pre), post. by rewrite app_cons, H.
    + intros ([|a pre] & post & H).
      * left. by exists post.
      * right. rewrite app_cons in H. injection H as -> ->. by exists pre, post.
Qed.

(* ================================================================== *)
(** * Facts about the matcher *)

Section MatcherFacts.
Context {A : Type}.
Implicit Types (k : Re.mstate -> option A) (st : Re.mstate).

(** Soundness: a successful run consists of a match and a success of the
    continuation at its end. *)
Lemma m_sound r : forall st k a,
  Re.m r st k = Some a -> exists st', Re.Matches r st st' /\ k st' = Some a.
Proof.
  induction r as [|p|r1 IH1 r2 IH2|r1 IH1 r2 IH2|b r1 IH1|r1 IH1| |];
    intros st k a H; simpl in H.
  - exists st. split; [constructor|done].
  - destruct st as [pv [|c s] g]; simpl in H; [done|].
    destruct (p c) eqn:Hp; [|done].
    eexists. split; [by constructor|done].
  - apply IH1 in H as (st1 & H1 & H). apply IH2 in H as (st2 & H2 & H).
    exists st2. split; [by econstructor|done].
  - unfold Re.orelse in H. destruct (Re.m r1 st k) eqn:E1.
    + injection H as ->. apply IH1 in E1 as (st' & H1 & H).
      exists st'. split; [by apply Re.M_Alt_l|done].
    + apply IH2 in H as (st' & H2 & H).
      exists st'. split; [by apply Re.M_Alt_r|done].
  - revert H. generalize (String.length (Re.ms_rest st)). intros n. revert st.
    induction n as [|n IHn]; intros st H; simpl in H.
    + exists st. split; [constructor|].
      destruct b; simpl in H; [done|]. unfold Re.orelse in H. by destruct (k st).
    + assert (Hcase : k st = Some a \/
        Re.m r1 st (fun st' =>
          if (String.length (Re.ms_rest st') <? String.length (Re.ms_rest st))%nat
          then Re.star_loop (Re.m r1) b k n st' else None) = Some a).
      { unfold Re.orelse in H. destruct b.
        - destruct (Re.m r1 st _) eqn:E; [right; congruence|by left].
        - destruct (k st) eqn:E; [left; congruence|by right]. }
      destruct Hcase as [Hk|Hm].
      * exists st. split; [constructor|done].
      * apply IH1 in Hm as (st1 & H1 & Hm).
        destruct (_ <? _)%nat; [|done].
        apply IHn in Hm as (st2 & H2 & Hm).
        exists st2. split; [by econstructor|done].
  - apply IH1 in H as (st1 & H1 & H).
    eexists. split; [by constructor|done].
  - destruct (xorb _ _); [|done]. exists st. split; [constructor|done].
  - exists st. split; [constructor|].
    destruct (Re.ms_rest st) as [|c [|]]; [done| |done].
    by destruct (Ascii.eqb c _).
Qed.

End MatcherFacts.

(** A match consumes a prefix of the remaining text, made of characters of
    the pattern's alphabet. *)
Lemma Matches_consumes r st st' :
  Re.Matches r st st' ->
  exists w, Re.ms_rest st = w +:+ Re.ms_rest st' /\ Str.all (Re.alphabet r) w = true.
Proof.
  induction 1 as [st|p pv c s g Hp|r1 r2 st st1 st2 _ IH1 _ IH2
                 |r1 r2 st st' _ IH|r1 r2 st st' _ IH|b r st
                 |b r st st1 st2 _ IH1 _ IH2|r st st1 _ IH|st|st]; simpl in *.
  - by exists EmptyString.
  - exists (String c EmptyString). simpl. by rewrite Hp.
  - destruct IH1 as (w1 & E1 & A1), IH2 as (w2 & E2 & A2).
    exists (w1 +:+ w2). rewrite E1, E2, app_assoc_str. split; [done|].
    rewrite all_app. apply andb_true_iff. split.
    + eapply all_impl; [|exact A1]. intros c ->. done.
    + eapply all_impl; [|exact A2]. intros c ->. apply orb_true_r.
  - destruct IH as (w & E & Hw). exists w. split; [done|].
    eapply all_impl; [|exact Hw]. intros c ->. done.
  - destruct IH as (w & E & Hw). exists w. split; [done|].
    eapply all_impl; [|exact Hw]. intros c ->. apply orb_true_r.
  - by exists EmptyString.
  - destruct IH1 as (w1 & E1 & A1), IH2 as (w2 & E2 & A2).
    exists (w1 +:+ w2). rewrite E1, E2, app_assoc_str. split; [done|].
    rewrite all_app. apply andb_true_iff. split; [exact A1|exact A2].
  - exact IH.
  - by exists EmptyString.
  - by exists EmptyString.
Qed.

(** Only a capture group changes the captured text. *)
Lemma Matches_groupless r st st' :
  Re.Matches r st st' -> Re.groupless r = true -> Re.ms_group st' = Re.ms_group st.
Proof.
  induction 1 as [| |r1 r2 st st1 st2 _ IH1 _ IH2|r1 r2 st st' _ IH
                 |r1 r2 st st' _ IH| |b r st st1 st2 _ IH1 _ IH2| | |];
    simpl; intros Hg; try done.
  - apply andb_true_iff in Hg as [Hg1 Hg2]. by rewrite IH2, IH1.
  - apply andb_true_iff in Hg as [Hg1 Hg2]. auto.
  - apply andb_true_iff in Hg as [Hg1 Hg2]. auto.
  - by rewrite IH2, IH1.
Qed.

Ltac inv_seq :=
  match goal with
  | H : Re.Matches (Re.Seq _ _) _ _ |- _ => inversion H; subst; clear H
  end.

Ltac inv_group :=
  match goal with
  | H : Re.Matches (Re.Group _) _ _ |- _ => inversion H; subst; clear H
  end.

Lemma search_from_here r : forall s prev i mo,
  Re.search_from r prev s i = Some mo ->
  exists prev' s', Re.match_here r prev' s' = Some (Re.group mo).
Proof.
  induction s as [|c s IH]; intros prev i mo H; simpl in H.
  - destruct (Re.match_here r prev EmptyString) eqn:E; [|done].
    injection H as <-. eauto.
  - destruct (Re.match_here r prev (String c s)) eqn:E.
    + injection H as <-. eauto.
    + eauto.
Qed.

(** ** The two patterns always fill group 1 *)

Lemma loc_group_some prev s g :
  Re.match_here loc_pattern prev s = Some g -> exists w, g = Some w.
Proof.
  unfold Re.match_here. intros H.
  apply m_sound in H as (st' & HM & Hk). injection Hk as <-.
  cbv [loc_pattern Re.Cat foldr] in HM.
  do 4 inv_seq. inv_group.
  match goal with H : Re.Matches (Re.Seq (Re.Alt _ _) Re.Eps) _ _ |- _ =>
    apply Matches_groupless in H; [|reflexivity]; rewrite H end.
  simpl. eauto.
Qed.

(** ** Text of a price *)

Lemma remove_app c s t : Str.remove c (s +:+ t) = Str.remove c s +:+ Str.remove c t.
Proof.
  induction s as [|a s IH]; [reflexivity|].
  rewrite app_cons. simpl. destruct (Ascii.eqb a c); [done|]. by rewrite app_cons, IH.
Qed.

Lemma remove_absent (p : ascii -> bool) c s :
  p c = false -> Str.all p s = true -> Str.remove c s = s.
Proof.
  intros Hc. induction s as [|a s IH]; [done|]. simpl.
  rewrite andb_true_iff. intros [Ha Hs].
  destruct (Ascii.eqb_spec a c) as [->|_]; [congruence|]. by rewrite IH.
Qed.

Lemma remove_comma_digits s :
  Str.all (fun c => Chr.is_digit c || Ascii.eqb c ",") s = true ->
  Str.all Chr.is_digit (Str.remove "," s) = true.
Proof.
  induction s as [|a s IH]; [done|]. simpl.
  rewrite andb_true_iff. intros [Ha Hs].
  destruct (Ascii.eqb a ","); [auto|]. simpl.
  rewrite orb_false_r in Ha. rewrite Ha. auto.
Qed.

Lemma split_dot_digits d :
  Str.all Chr.is_digit d = true -> Num.split_dot d = (d, None).
Proof.
  induction d as [|a d IH]; [done|]. simpl.
  rewrite andb_true_iff. intros [Ha Hd].
  destruct (Ascii.eqb_spec a ".") as [->|_]; [done|]. by rewrite IH.
Qed.

Lemma split_dot_app d f :
  Str.all Chr.is_digit d = true ->
  Num.split_dot (d +:+ String "." f) = (d, Some f).
Proof.
  induction d as [|a d IH]; [done|]. rewrite app_cons. simpl.
  rewrite andb_true_iff. intros [Ha Hd].
  destruct (Ascii.eqb_spec a ".") as [->|_]; [done|]. by rewrite IH.
Qed.

(** [float] accepts a digit followed by digits and commas, with an optional
    fractional part, once the commas are removed. *)
Lemma float_price_text c u v :
  Chr.is_digit c = true ->
  Str.all (fun c => Chr.is_digit c || Ascii.eqb c ",") u = true ->
  (v = EmptyString \/
   exists c' f, v = String "." (String c' f) /\ Str.all Chr.is_digit (String c' f) = true) ->
  exists q, Num.float (Str.remove "," (String c (u +:+ v))) = Ok q.
Proof.
  intros Hc Hu Hv.
  assert (Hd : Str.all Chr.is_digit (String c (Str.remove "," u)) = true).
  { simpl. by rewrite Hc, remove_comma_digits. }
  assert (E : Str.remove "," (String c (u +:+ v)) = String c (Str.remove "," u) +:+ Str.remove "," v).
  { simpl. destruct (Ascii.eqb_spec c ",") as [->|_]; [done|]. by rewrite remove_app. }
  rewrite E. unfold Num.float.
  destruct Hv as [->|(c' & f & -> & Hf)].
  - simpl Str.remove. rewrite app_empty_r, split_dot_digits by done.
    rewrite Hd. simpl. eauto.
  - assert (Ev : Str.remove "," (String "." (String c' f)) = String "." (String c' f)).
    { transitivity (String "." (Str.remove "," (String c' f))); [reflexivity|].
      by rewrite (remove_absent Chr.is_digit "," (String c' f)). }
    rewrite Ev, split_dot_app by done.
    rewrite Hd, Hf. simpl. eauto.
Qed.

Ltac inv_cls :=
  match goal with
  | H : Re.Matches (Re.Cls _) _ _ |- _ => inversion H; subst; clear H
  end.

Ltac inv_eps :=
  match goal with
  | H : Re.Matches Re.Eps _ _ |- _ => inversion H; subst; clear H
  end.

Lemma price_group_float prev s g :
  Re.match_here price_pattern prev s = Some g ->
  exists w q, g = Some w /\ Num.float (Str.remove "," w) = Ok q.
Proof.
  unfold Re.match_here. intros H.
  apply m_sound in H as (st' & HM & Hk). injection Hk as <-.
  cbv [price_pattern Re.Cat foldr] in HM.
  do 4 inv_seq. inv_eps. inv_group. simpl Re.ms_group.
  do 3 inv_seq. inv_eps. unfold Re.Plus in *. inv_seq. inv_cls.
  apply Matches_consumes in H10 as (w1 & E1 & A1). simpl in E1.
  apply Matches_consumes in H4 as (w2 & E2 & A2).
  assert (A1' : Str.all (fun c => Chr.is_digit c || Ascii.eqb c ",") w1 = true).
  { eapply all_impl; [|exact A1]. simpl. by intros x ->. }
  assert (A2' : Str.all (fun c => Chr.is_digit c || Ascii.eqb c ",") w2 = true).
  { eapply all_impl; [|exact A2]. intros x. unfold Re.Chr. cbn [Re.alphabet].
    rewrite (Ascii.eqb_sym "," x).
    by destruct (Chr.is_digit x), (Ascii.eqb x ","). }
  assert (Hu : Str.all (fun c => Chr.is_digit c || Ascii.eqb c ",") (w1 +:+ w2) = true).
  { by rewrite all_app, A1', A2'. }
  assert (Hv : exists v, Re.ms_rest st5 = v +:+ Re.ms_rest st3 /\
     (v = EmptyString \/
      exists c' f, v = String "." (String c' f) /\
                   Str.all Chr.is_digit (String c' f) = true)).
  { unfold Re.Opt in H6. inversion H6; subst; clear H6.
    - unfold Re.Chr in *. do 3 inv_seq. inv_eps. do 2 inv_cls.
      match goal with H : Re.Matches (Re.Star _ _) _ _ |- _ =>
        apply Matches_consumes in H as (w3 & E3 & A3) end.
      simpl in E3.
      match goal with H : Ascii.eqb "." _ = true |- _ =>
        apply Ascii.eqb_eq in H; subst end.
      match goal with H : Chr.is_digit ?d = true |- context [String "." (String ?d _)] =>
        exists (String "." (String d w3)); split;
          [simpl; by rewrite !app_cons|];
        right; exists d, w3; split; [done|simpl; rewrite H; exact A3] end.
    - inv_eps. exists EmptyString. split; [done|by left]. }
  destruct Hv as (v & E3 & Hv).
  destruct (float_price_text c (w1 +:+ w2) v H0 Hu Hv) as [q Hq].
  eexists _, q. split; [reflexivity|].
  replace (String c s0) with (String c ((w1 +:+ w2) +:+ v) +:+ Re.ms_rest st3).
  - cbn [Re.ms_rest]. by rewrite take_app_length.
  - rewrite app_cons. f_equal. by rewrite E1, E2, E3, !app_assoc_str.
Qed.

(** ** [extract_intent] raises nothing *)

Lemma extract_intent_ok q :
  extract_intent q =
  Ok {| location := location_of q;
        max_price := max_price_of q;
        amenities := elements (found_amenities key_amenities q) |}.
Proof.
  unfold extract_intent, location_of, max_price_of, Re.search.
  destruct (Re.search_from loc_pattern None q 0) as [lm|] eqn:El.
  - destruct (search_from_here _ _ _ _ _ El) as (pv & s' & Hl).
    apply loc_group_some in Hl as [w Hw].
    unfold group1. rewrite Hw. cbn [bind option_map].
    destruct (Re.search_from price_pattern None q 0) as [pm|] eqn:Ep; [|done].
    destruct (search_from_here _ _ _ _ _ Ep) as (pv' & s'' & Hp).
    apply price_group_float in Hp as (w' & v & Hw' & Hv).
    rewrite Hw'. cbn [bind]. rewrite Hv. done.
  - cbn [bind].
    destruct (Re.search_from price_pattern None q 0) as [pm|] eqn:Ep; [|done].
    destruct (search_from_here _ _ _ _ _ Ep) as (pv' & s'' & Hp).
    apply price_group_float in Hp as (w' & v & Hw' & Hv).
    unfold group1. rewrite Hw'. cbn [bind]. rewrite Hv. done.
Qed.

(** ** The amenity loop *)

Lemma contains_ci (sub s : string) :
  Str.contains (Str.lower sub) (Str.lower s) = true <-> Substring_ci sub s.
Proof. apply contains_spec. Qed.

Lemma found_synonyms q a (syns : list string) (acc : gset string) x :
  x ∈ foldl (fun found syn =>
               if Str.contains (Str.lower syn) (Str.lower q)
               then found ∪ {[ a ]} else found) acc syns
  <-> x ∈ acc \/ (x = a /\ exists syn, syn ∈ syns /\ Substring_ci syn q).
Proof.
  revert acc. induction syns as [|syn syns IH]; intros acc; simpl.
  - split; [auto|]. intros [?|[_ (syn & Hin & _)]]; [done|]. by apply elem_of_nil in Hin.
  - rewrite IH. destruct (Str.contains _ _) eqn:E.
    + apply contains_ci in E. rewrite elem_of_union, elem_of_singleton. split.
      * intros [[?| ->]|(-> & syn' & ? & ?)]; [auto| |].
        -- right. split; [done|]. exists syn. split; [left|done].
        -- right. split; [done|]. exists syn'. split; [by right|done].
      * intros [?|(-> & syn' & ? & ?)]; auto.
    + assert (Hno : ~ Substring_ci syn q).
      { rewrite <- contains_ci. congruence. }
      split.
      * intros [?|(-> & syn' & ? & ?)]; [auto|].
        right. split; [done|]. exists syn'. split; [by right|done].
      * intros [?|(-> & syn' & Hin & ?)]; [auto|].
        apply elem_of_cons in Hin as [->|?]; [done|]. right. eauto.
Qed.

Lemma found_amenities_acc q (names : list string) (acc : gset string) x :
  x ∈ foldl (fun found a =>
               let found :=
                 if Str.contains (Str.lower a) (Str.lower q)
                 then found ∪ {[ a ]} else found in
               foldl (fun found syn =>
                        if Str.contains (Str.lower syn) (Str.lower q)
                        then found ∪ {[ a ]} else found)
                 found (dict_get AMENITY_SYNONYMS a [])) acc names
  <-> x ∈ acc \/ (x ∈ names /\ mentions q x).
Proof.
  revert acc. induction names as [|a names IH]; intros acc.
  - simpl. split; [auto|]. intros [?|[Hin _]]; [done|]. by apply elem_of_nil in Hin.
  - cbn [foldl]. rewrite IH, found_synonyms. unfold mentions.
    destruct (Str.contains (Str.lower a) (Str.lower q)) eqn:E.
    + apply contains_ci in E. rewrite elem_of_union, elem_of_singleton, elem_of_cons.
      split.
      * intros [[[?| ->]|(-> & ?)]|(? & ?)]; auto.
      * intros [?|([->|?] & ?)]; auto.
    + assert (Hno : ~ Substring_ci a q).
      { rewrite <- contains_ci. congruence. }
      rewrite elem_of_cons. split.
      * intros [[?|(-> & ?)]|(? & ?)]; auto.
      * intros [?|([->|?] & [?|?])]; auto. done.
Qed.

Lemma found_amenities_spec q names x :
  x ∈ found_amenities names q <-> x ∈ names /\ mentions q x.
Proof.
  unfold found_amenities. rewrite found_amenities_acc.
  split; [intros [?|?]; [set_solver|done]|auto].
Qed.

(* ================================================================== *)
(** * Scoring *)

Lemma py_sum_foldr (l : list Q) (acc : Q) :
  (foldl Qplus acc l == acc + foldr Qplus 0 l)%Q.
Proof.
  revert acc. induction l as [|x l IH]; intros acc; simpl.
  - ring.
  - rewrite IH. ring.
Qed.

Lemma sum_flags row (l : list string) :
  (py_sum (map (row_get row) l) == foldr (fun a acc => row_get row a + acc) 0 l)%Q.
Proof.
  unfold py_sum. rewrite py_sum_foldr.
  induction l as [|a l IH]; simpl; [ring|].
  rewrite <- IH. ring.
Qed.

Lemma len_cons_nonzero {A} (a : A) (l : list A) : Qeq_bool (len (a :: l)) 0 = false.
Proof.
  apply not_true_iff_false. rewrite Qeq_bool_iff. unfold len, Qeq. simpl. lia.
Qed.

Lemma div_ok a b : ~ (b == 0)%Q -> div a b = Ok (a / b)%Q.
Proof.
  intros Hb. unfold div.
  destruct (Qeq_bool b 0) eqn:E; [|done]. by apply Qeq_bool_iff in E.
Qed.

Lemma Qle_bool_false a b : Qle_bool a b = false <-> (b < a)%Q.
Proof.
  rewrite <- not_true_iff_false, Qle_bool_iff. split; [apply Qnot_le_lt|apply Qlt_not_le].
Qed.

Lemma amenity_sim_ok row (req : list string) :
  match req with
  | _ :: _ => div (py_sum (map (row_get row) req)) (len req)
  | [] => Ok 0%Q
  end
  = Ok match req with
       | _ :: _ => (py_sum (map (row_get row) req) / len req)%Q
       | [] => 0%Q
       end.
Proof.
  destruct req as [|a l]; [done|].
  apply div_ok. intros E. apply Qeq_bool_iff in E. by rewrite len_cons_nonzero in E.
Qed.

Lemma amenity_sim_spec row (req : list string) :
  (match req with
   | _ :: _ => py_sum (map (row_get row) req) / len req
   | [] => 0
   end == spec_amenity_ratio row req)%Q.
Proof.
  destruct req as [|a l]; [reflexivity|].
  unfold spec_amenity_ratio. by rewrite sum_flags.
Qed.

(** C1: for a positive or absent price ceiling the scorer returns
    semantic + amenity_ratio - price_penalty, with the amenity ratio 0 for
    an empty request and the penalty max(0, (price - max_price) / max_price). *)
Theorem final_score_formula (cosine_similarity : embedding -> embedding -> Q)
    (row : Listing) (query_embedding : embedding)
    (requested_amenities : list string) (max_price : option Q) :
  (forall mp, max_price = Some mp -> (0 < mp)%Q) ->
  exists s,
    final_score cosine_similarity row query_embedding requested_amenities max_price = Ok s
    /\ (s == spec_score cosine_similarity row query_embedding requested_amenities max_price)%Q.
Proof.
  intros Hpos. unfold final_score, spec_score.
  rewrite amenity_sim_ok. cbn [bind].
  destruct max_price as [mp|]; cbn [spec_price_penalty].
  - specialize (Hpos mp eq_refl).
    destruct (Qle_bool (price row) mp) eqn:E; cbn [negb].
    + apply Qle_bool_iff in E. cbn [bind]. eexists. split; [reflexivity|].
      rewrite amenity_sim_spec, Q.max_l; [reflexivity|].
      apply Qle_shift_div_r; [done|]. lra.
    + apply Qle_bool_false in E. rewrite div_ok by lra. cbn [bind].
      eexists. split; [reflexivity|].
      rewrite amenity_sim_spec, Q.max_r; [reflexivity|].
      apply Qle_shift_div_l; [done|]. lra.
  - cbn [bind]. eexists. split; [reflexivity|]. by rewrite amenity_sim_spec.
Qed.

(** ** Scoring the surviving rows *)

Lemma final_score_unpenalised cs row qe req (max_price : option Q) :
  (forall mp, max_price = Some mp -> Qle_bool (price row) mp = true) ->
  final_score cs row qe req max_price = Ok (unpenalised cs qe req row).
Proof.
  intros Hle. unfold final_score, unpenalised.
  rewrite amenity_sim_ok. cbn [bind].
  destruct max_price as [mp|]; [|done].
  by rewrite (Hle mp eq_refl).
Qed.

Lemma mapM_ok {A B} (f : A -> result B) (g : A -> B) (l : list A) :
  (forall x, x ∈ l -> f x = Ok (g x)) -> mapM f l = Ok (map g l).
Proof.
  induction l as [|a l IH]; intros H; [done|]. simpl.
  rewrite (H a) by left. cbn [bind]. rewrite IH; [done|].
  intros x Hx. apply H. by right.
Qed.

Lemma zip_map_self {A B} (g : A -> B) (l : list A) :
  zip l (map g l) = map (fun x => (x, g x)) l.
Proof. induction l as [|a l IH]; [done|]. simpl. by rewrite IH. Qed.

Lemma filter_price_le mp df row :
  row ∈ filter_price (Some mp) df -> Qle_bool (price row) mp = true.
Proof. unfold filter_price. rewrite list_elem_of_filter. by intros [? _]. Qed.

(** [search_listings] raises when no row survives the filters, and
    otherwise returns the first ten of the sorted scored rows. *)
Lemma search_listings_eq cs eq sort df q keys :
  search_listings cs eq sort df q keys
  = match surviving q df with
    | [] => Raise ValueError
    | _ :: _ => Ok (take 10 (sort (scored_rows cs eq keys q df)))
    end.
Proof.
  unfold search_listings. rewrite extract_intent_ok. cbn [bind location max_price amenities].
  change (filter_price (max_price_of q)
            (filter_location (clean_location (location_of q)) df))
    with (surviving q df).
  unfold scored_rows, assign_scores.
  assert (Hle : forall row, row ∈ surviving q df ->
            forall mp, max_price_of q = Some mp -> Qle_bool (price row) mp = true).
  { intros row Hrow mp Hmp. unfold surviving in Hrow. rewrite Hmp in Hrow.
    by apply filter_price_le in Hrow. }
  destruct (surviving q df) as [|row0 l] eqn:E; [done|].
  erewrite mapM_ok.
  - cbn [bind]. by rewrite zip_map_self.
  - intros row Hrow. apply final_score_unpenalised. by apply Hle.
Qed.

Lemma search_listings_none cs eq sort df q keys :
  surviving q df = [] -> search_listings cs eq sort df q keys = Raise ValueError.
Proof. intros E. by rewrite search_listings_eq, E. Qed.

Lemma search_listings_some cs eq sort df q keys :
  surviving q df <> [] ->
  search_listings cs eq sort df q keys
  = Ok (take 10 (sort (scored_rows cs eq keys q df))).
Proof. intros E. rewrite search_listings_eq. by destruct (surviving q df). Qed.

Lemma search_listings_Ok cs eq sort df q keys rows :
  search_listings cs eq sort df q keys = Ok rows ->
  surviving q df <> [] /\ rows = take 10 (sort (scored_rows cs eq keys q df)).
Proof.
  rewrite search_listings_eq. destruct (surviving q df); [done|].
  intros [= <-]. done.
Qed.

(* ================================================================== *)
(** * Sorting *)

Lemma insert_before_perm x l : Permutation (insert_before x l) (x :: l).
Proof.
  induction l as [|y l IH]; simpl; [done|].
  destruct (Qle_bool (score y) (score x)); [done|].
  rewrite IH. apply perm_swap.
Qed.

Lemma insert_before_sorted x l :
  StronglySorted desc l -> StronglySorted desc (insert_before x l).
Proof.
  induction 1 as [|y l Hs IH Hy]; simpl.
  - repeat constructor.
  - destruct (Qle_bool (score y) (score x)) eqn:E.
    + apply Qle_bool_iff in E. constructor; [by constructor|].
      constructor; [exact E|].
      eapply Forall_impl; [exact Hy|]. unfold desc. intros z Hz. lra.
    + apply Qle_bool_false in E. constructor; [exact IH|].
      rewrite insert_before_perm. constructor; [|exact Hy].
      unfold desc. lra.
Qed.

Lemma sort_stable_contract : sort_contract sort_stable.
Proof.
  split; intros l; unfold sort_stable.
  - induction l as [|x l IH]; simpl; [done|]. by rewrite insert_before_perm, IH.
  - induction l as [|x l IH]; simpl; [constructor|]. by apply insert_before_sorted.
Qed.

Lemma sorted_take (l : list ScoredListing) n :
  StronglySorted desc l -> StronglySorted desc (take n l).
Proof.
  intros Hs. revert n. induction Hs as [|x l Hs IH Hx]; intros [|n]; simpl;
    try constructor; [apply IH|].
  rewrite Forall_forall in *. intros y Hy. apply Hx.
  rewrite <- (take_drop n l). apply elem_of_app. by left.
Qed.

(* ================================================================== *)
(** * The location pattern *)

(** A lazy run over a class stops at the first place where the
    continuation succeeds: if the continuation succeeds whenever the next
    character is in [q], no consumed character is in [q]. *)
Lemma lazy_run {A} (p q : ascii -> bool) (k : Re.mstate -> option A) :
  (forall pv c rest g, q c = true -> k (Re.MState pv (String c rest) g) <> None) ->
  forall n st a,
    Re.star_loop (Re.m (Re.Cls p)) false k n st = Some a ->
    exists w st',
      Re.ms_rest st = w +:+ Re.ms_rest st'
      /\ Str.all (fun c => p c && negb (q c)) w = true
      /\ k st' = Some a.
Proof.
  intros Hq. induction n as [|n IH]; intros st a H; simpl in H.
  - exists EmptyString, st. unfold Re.orelse in H. by destruct (k st).
  - unfold Re.orelse in H. destruct (k st) eqn:Ek.
    + exists EmptyString, st. injection H as ->. done.
    + destruct st as [pv [|c s] g]; simpl in H; [done|].
      destruct (p c) eqn:Hp; [|done]. simpl in H.
      destruct (_ <? _)%nat; [|done].
      apply IH in H as (w & st' & E & Hw & Hk). simpl in E.
      exists (String c w), st'. rewrite app_cons, <- E. split; [done|]. split; [|done].
      simpl. rewrite Hp, Hw.
      destruct (q c) eqn:Hqc; [|done]. by apply (Hq pv c s g) in Hqc.
Qed.

Lemma alpha_not_space c : Chr.is_alpha c = true -> Chr.isspace c = false.
Proof. destruct c as [[] [] [] [] [] [] [] []]; vm_compute; congruence. Qed.

Lemma re_space_isspace c : Chr.re_space c = true -> Chr.isspace c = true.
Proof. unfold Chr.isspace. by intros ->. Qed.

Lemma lstrip_id (p : ascii -> bool) c s : p c = false -> Str.lstrip p (String c s) = String c s.
Proof. simpl. by intros ->. Qed.

Lemma rstrip_id (p : ascii -> bool) s :
  Str.all (fun c => negb (p c)) s = true -> Str.rstrip p s = s.
Proof.
  induction s as [|c s IH]; [done|]. simpl.
  rewrite andb_true_iff, negb_true_iff. intros [Hc Hs].
  rewrite IH by done. destruct s; [by rewrite Hc|done].
Qed.

Lemma strip_letters s : Str.all Chr.is_alpha s = true -> Str.strip s = s.
Proof.
  intros Hs. unfold Str.strip.
  assert (Hn : Str.all (fun c => negb (Chr.isspace c)) s = true).
  { eapply all_impl; [|exact Hs]. intros c Hc. by rewrite alpha_not_space. }
  destruct s as [|c s]; [done|].
  simpl in Hs. apply andb_true_iff in Hs as [Hc _].
  rewrite lstrip_id by (by apply alpha_not_space). by apply rstrip_id.
Qed.

Lemma strip_chars_absent chars s :
  Str.all (fun c => negb (Str.mem c chars)) s = true -> Str.strip_chars chars s = s.
Proof.
  intros Hs. unfold Str.strip_chars.
  destruct s as [|c s]; [done|].
  pose proof Hs as Hs'. simpl in Hs'. apply andb_true_iff in Hs' as [Hc _].
  apply negb_true_iff in Hc.
  rewrite (lstrip_id (fun c => Str.mem c chars)) by done. by apply rstrip_id.
Qed.

Lemma m_seq_inv {A} r1 r2 st (k : Re.mstate -> option A) a :
  Re.m (Re.Seq r1 r2) st k = Some a ->
  exists st1, Re.Matches r1 st st1 /\ Re.m r2 st1 k = Some a.
Proof. simpl. intros H. by apply m_sound in H. Qed.

(** The text of a lazily repeated class in a group: after its first
    character, none is one at which the rest of the pattern succeeds. *)
Lemma lazy_group_text {A} (p q : ascii -> bool) (T : Re.regex)
    (k : Re.mstate -> option A) st a :
  (forall pv c rest g, q c = true -> Re.m T (Re.MState pv (String c rest) g) k <> None) ->
  Re.m (Re.Seq (Re.Group (Re.Plus false (Re.Cls p))) T) st k = Some a ->
  exists c w pv rest,
    p c = true
    /\ Str.all (fun c => p c && negb (q c)) w = true
    /\ Re.m T (Re.MState pv rest (Some (String c w))) k = Some a.
Proof.
  intros Hq H. unfold Re.Plus in H. simpl in H.
  destruct st as [pv0 [|c s] g0]; simpl in H; [done|].
  destruct (p c) eqn:Hp; [|done].
  apply (lazy_run p q) in H as (w & st' & E & Hw & Hk).
  - simpl in E. exists c, w, (Re.ms_prev st'), (Re.ms_rest st').
    split; [done|]. split; [done|].
    rewrite <- Hk. do 3 f_equal.
    change (S (String.length s)) with (String.length (String c s)).
    rewrite E, <- app_cons. by rewrite take_app_length.
  - intros pv c' rest g Hc'. simpl. by apply Hq.
Qed.

Lemma location_letters q loc :
  location_of q = Some loc -> Str.all Chr.is_alpha loc = true.
Proof.
  unfold location_of, Re.search.
  destruct (Re.search_from loc_pattern None q 0) as [mo|] eqn:E; [|done].
  apply search_from_here in E as (pv & s & E).
  destruct (Re.group mo) as [w|]; [|done]. simpl. intros [= <-].
  unfold Re.match_here in E. cbv [loc_pattern Re.Cat foldr] in E.
  apply m_seq_inv in E as (st1 & _ & E).
  apply m_seq_inv in E as (st2 & _ & E).
  apply m_seq_inv in E as (st3 & _ & E).
  apply (lazy_group_text _ Chr.re_space) in E as (c & u & pv' & rest & Hc & Hu & E).
  - apply m_sound in E as (st' & HM & Hk).
    apply Matches_groupless in HM; [|reflexivity].
    simpl in HM. rewrite HM in Hk. injection Hk as <-.
    assert (Hu' : Str.all Chr.is_alpha u = true).
    { eapply all_impl; [|exact Hu]. intros x. simpl.
      destruct (Chr.re_space x); [by rewrite orb_true_r|by rewrite orb_false_r, andb_true_r]. }
    destruct (Chr.re_space c) eqn:Hsp.
    + unfold Str.strip. simpl. rewrite (re_space_isspace c Hsp).
      fold (Str.strip u). by rewrite strip_letters.
    + rewrite orb_false_r in Hc.
      rewrite strip_letters; simpl; by rewrite Hc.
  - intros pv' c rest g Hc. simpl. by rewrite Hc.
Qed.

(** ** Where the search stops *)

Lemma search_from_start_ge r : forall s prev i mo,
  Re.search_from r prev s i = Some mo -> (i <= Re.start mo)%nat.
Proof.
  induction s as [|c s IH]; intros prev i mo H; simpl in H.
  - destruct (Re.match_here r prev EmptyString); [|done]. injection H as <-. simpl. lia.
  - destruct (Re.match_here r prev (String c s)).
    + injection H as <-. simpl. lia.
    + apply IH in H. lia.
Qed.

(** A search whose match starts after [pre] returns what the pattern
    gives right there. *)
Lemma search_from_at r : forall pre s prev i mo,
  Re.search_from r prev (pre +:+ s) i = Some mo ->
  Re.start mo = (i + String.length pre)%nat ->
  Re.match_here r (prev_after prev pre) s = Some (Re.group mo).
Proof.
  induction pre as [|c pre IH]; intros s prev i mo H Hst.
  - rewrite app_empty_l in H. simpl in Hst. simpl.
    destruct s as [|c s]; simpl in H.
    + destruct (Re.match_here r prev EmptyString); [|done]. by injection H as <-.
    + destruct (Re.match_here r prev (String c s)); [by injection H as <-|].
      apply search_from_start_ge in H. lia.
  - rewrite app_cons in H. simpl in H, Hst.
    destruct (Re.match_here r prev (String c (pre +:+ s))).
    + injection H as <-. simpl in Hst. lia.
    + simpl. apply (IH s (Some c) (S i)); [done|lia].
Qed.

Lemma first_match_here r pre s mo :
  Re.search r (pre +:+ s) = Some mo ->
  Re.start mo = String.length pre ->
  Re.match_here r (prev_after None pre) s = Some (Re.group mo).
Proof. intros H Hst. by apply (search_from_at r pre s None 0%nat). Qed.

(** ** Running the matcher step by step *)

Section Steps.
Context {A : Type}.
Implicit Types (k : Re.mstate -> option A).

Lemma m_Eps st k : Re.m Re.Eps st k = k st.
Proof. reflexivity. Qed.

Lemma m_Seq r1 r2 st k :
  Re.m (Re.Seq r1 r2) st k = Re.m r1 st (fun st' => Re.m r2 st' k).
Proof. reflexivity. Qed.

Lemma m_Alt r1 r2 st k :
  Re.m (Re.Alt r1 r2) st k = Re.orelse (Re.m r1 st k) (Re.m r2 st k).
Proof. reflexivity. Qed.

Lemma m_Cls_cons p pv c s g k :
  Re.m (Re.Cls p) (Re.MState pv (String c s) g) k
  = if p c then k (Re.MState (Some c) s g) else None.
Proof. reflexivity. Qed.

Lemma m_Cls_nil p pv g k :
  Re.m (Re.Cls p) (Re.MState pv EmptyString g) k = None.
Proof. reflexivity. Qed.

Lemma m_Group r st k :
  Re.m (Re.Group r) st k
  = Re.m r st (fun st' =>
      k (Re.MState (Re.ms_prev st') (Re.ms_rest st')
           (Some (Str.take (String.length (Re.ms_rest st)
                            - String.length (Re.ms_rest st'))
                    (Re.ms_rest st))))).
Proof. reflexivity. Qed.

Lemma m_WordB pv s g k :
  Re.m Re.WordB (Re.MState pv s g) k
  = if xorb (Re.is_word pv) (Re.is_word (Re.next s))
    then k (Re.MState pv s g) else None.
Proof. reflexivity. Qed.

Lemma m_Eos_nil pv g k :
  Re.m Re.Eos (Re.MState pv EmptyString g) k = k (Re.MState pv EmptyString g).
Proof. reflexivity. Qed.

Lemma m_Eos_one pv c g k :
  Re.m Re.Eos (Re.MState pv (String c EmptyString) g) k
  = if Ascii.eqb c "010" then k (Re.MState pv (String c EmptyString) g) else None.
Proof. reflexivity. Qed.

Lemma m_Eos_more pv c c' s g k :
  Re.m Re.Eos (Re.MState pv (String c (String c' s)) g) k = None.
Proof. reflexivity. Qed.

Lemma orelse_None_l (x : option A) : Re.orelse None x = x.
Proof. reflexivity. Qed.

Lemma orelse_None_r (x : option A) : Re.orelse x None = x.
Proof. by destruct x. Qed.

Lemma orelse_Some (a : A) (x : option A) : Re.orelse (Some a) x = Some a.
Proof. reflexivity. Qed.

(** A repeated class: one character at a time. *)
Lemma m_Star_Cls_cons b p pv c s g k :
  Re.m (Re.Star b (Re.Cls p)) (Re.MState pv (String c s) g) k
  = if p c
    then if b
         then Re.orelse (Re.m (Re.Star b (Re.Cls p)) (Re.MState (Some c) s g) k)
                (k (Re.MState pv (String c s) g))
         else Re.orelse (k (Re.MState pv (String c s) g))
                (Re.m (Re.Star b (Re.Cls p)) (Re.MState (Some c) s g) k)
    else k (Re.MState pv (String c s) g).
Proof.
  cbn [Re.m Re.ms_rest String.length Re.star_loop].
  destruct (p c).
  - replace (String.length s <? S (String.length s))%nat with true; [done|].
    symmetry. apply Nat.ltb_lt. lia.
  - destruct b; [reflexivity|apply orelse_None_r].
Qed.

(** Any repetition at the end of the text, or with one more step. *)
Lemma m_Star_nil b r pv g k :
  Re.m (Re.Star b r) (Re.MState pv EmptyString g) k = k (Re.MState pv EmptyString g).
Proof. simpl. destruct b; [reflexivity|apply orelse_None_r]. Qed.

Lemma m_Star_cons b r pv c s g k :
  Re.m (Re.Star b r) (Re.MState pv (String c s) g) k
  = let st := Re.MState pv (String c s) g in
    let again :=
      Re.m r st (fun st' =>
        if (String.length (Re.ms_rest st') <? String.length (Re.ms_rest st))%nat
        then Re.star_loop (Re.m r) b k (String.length s) st'
        else None) in
    if b then Re.orelse again (k st) else Re.orelse (k st) again.
Proof. reflexivity. Qed.

End Steps.

Lemma take_sub_cons c s t :
  (String.length t <= String.length s)%nat ->
  Str.take (String.length (String c s) - String.length t) (String c s)
  = String c (Str.take (String.length s - String.length t) s).
Proof.
  intros Hle. simpl String.length.
  replace (S (String.length s) - String.length t)%nat
    with (S (String.length s - String.length t)) by lia.
  reflexivity.
Qed.

Lemma take_sub_self s : Str.take (String.length s - String.length s) s = EmptyString.
Proof. rewrite Nat.sub_diag. by destruct s. Qed.

(** Decide the conditions on known characters. *)
Ltac eval_cond :=
  match goal with
  | |- context [if ?b then _ else _] =>
      lazymatch b with true => fail | false => fail | _ => idtac end;
      let v := eval vm_compute in b in
      match v with
      | true => change b with true
      | false => change b with false
      end; cbv iota
  end.

Ltac step :=
  match goal with
  | |- context [Re.m (Re.Cls _) (Re.MState _ (String _ _) _) _] => rewrite m_Cls_cons
  | |- context [Re.m (Re.Cls _) (Re.MState _ EmptyString _) _] => rewrite m_Cls_nil
  | |- context [Re.m (Re.Star _ (Re.Cls _)) (Re.MState _ (String _ _) _) _] =>
      rewrite m_Star_Cls_cons
  | |- context [Re.m (Re.Star _ _) (Re.MState _ EmptyString _) _] => rewrite m_Star_nil
  | |- context [Re.m (Re.Seq _ _) _ _] => rewrite m_Seq
  | |- context [Re.m (Re.Alt _ _) _ _] => rewrite m_Alt
  | |- context [Re.m Re.Eps _ _] => rewrite m_Eps
  | |- context [Re.m (Re.Group _) _ _] => rewrite m_Group
  | |- context [Re.m Re.WordB (Re.MState _ _ _) _] => rewrite m_WordB
  | |- context [Re.m Re.Eos (Re.MState _ EmptyString _) _] => rewrite m_Eos_nil
  | |- context [Re.m Re.Eos (Re.MState _ (String _ EmptyString) _) _] => rewrite m_Eos_one
  | |- context [Re.m Re.Eos (Re.MState _ (String _ (String _ _)) _) _] => rewrite m_Eos_more
  | |- context [Re.orelse None _] => rewrite orelse_None_l
  | |- context [Re.orelse _ None] => rewrite orelse_None_r
  | |- context [Re.orelse (Some _) _] => rewrite orelse_Some
  | _ => eval_cond
  end;
  cbv beta; cbn [Re.ms_prev Re.ms_rest Re.ms_group].

Ltac run := repeat step.

(** ** The location pattern at "in London" and "at London" *)

(** The words before the capture. *)
Lemma loc_prefix {A} (R : Re.regex) w pv post (k : Re.mstate -> option A) :
  w = "in London" \/ w = "at London" ->
  Re.m (Re.Seq Re.WordB
          (Re.Seq (Re.Alt (Re.Word_i "in") (Re.Word_i "at"))
             (Re.Seq (Re.Plus true (Re.Cls Chr.re_space)) R)))
    (Re.MState pv (w +:+ post) None) k
  = if Re.is_word pv then None
    else Re.m R (Re.MState (Some " "%char) ("London" +:+ post) None) k.
Proof.
  intros [-> | ->]; rewrite !app_cons, !app_empty_l; cbv [Re.Plus Re.Word_i];
    run; by destruct (Re.is_word pv).
Qed.

(** The capture and what ends it. *)
Lemma loc_capture pv post :
  ends_word post = true ->
  Re.m (Re.Seq (Re.Group (Re.Plus false
                  (Re.Cls (fun c => Chr.is_alpha c || Chr.re_space c))))
          (Re.Seq (Re.Alt (Re.Cls Chr.re_space) (Re.Alt Re.Eos (Re.Chr ","))) Re.Eps))
    (Re.MState pv ("London" +:+ post) None) (fun st => Some (Re.ms_group st))
  = Some (Some "London").
Proof.
  intros Hpost. rewrite !app_cons, !app_empty_l. cbv [Re.Plus Re.Chr].
  destruct post as [|c post].
  - run. reflexivity.
  - run. simpl in Hpost.
    rewrite !take_sub_cons by (simpl; lia). rewrite !take_sub_self.
    destruct (Chr.re_space c) eqn:Hs.
    + rewrite orb_true_r. reflexivity.
    + simpl in Hpost. apply Ascii.eqb_eq in Hpost. subst c.
      destruct post as [|c' post]; run; reflexivity.
Qed.

Lemma loc_here_London w pv post :
  w = "in London" \/ w = "at London" ->
  ends_word post = true ->
  Re.match_here loc_pattern pv (w +:+ post)
  = if Re.is_word pv then None else Some (Some "London").
Proof.
  intros Hw Hpost. unfold Re.match_here. cbv [loc_pattern Re.Cat foldr].
  rewrite (loc_prefix _ w) by done.
  destruct (Re.is_word pv); [done|]. by apply loc_capture.
Qed.

(** ** The price pattern at "under 200" and "max £200" *)

Lemma no_digit_here {A} pv post g (k : Re.mstate -> option A) :
  match post with String d _ => Chr.is_digit d | EmptyString => false end = false ->
  Re.m (Re.Cls Chr.is_digit) (Re.MState pv post g) k = None.
Proof. destruct post as [|d post]; [done|]. intros Hd. by rewrite m_Cls_cons, Hd. Qed.

Lemma no_three_digits {A} pv post g (k : Re.mstate -> option A) :
  match post with
  | String d1 (String d2 (String d3 _)) =>
      Chr.is_digit d1 && Chr.is_digit d2 && Chr.is_digit d3
  | _ => false
  end = false ->
  Re.m (Re.Rep 3 (Re.Cls Chr.is_digit)) (Re.MState pv post g) k = None.
Proof.
  cbv [Re.Rep]. intros H.
  destruct post as [|d1 [|d2 [|d3 post]]]; run;
    repeat match goal with
           | |- context [if Chr.is_digit ?d then _ else _] =>
               destruct (Chr.is_digit d) eqn:?; run
           end; done.
Qed.

(** Where the number cannot go on, its optional parts take nothing. *)
Lemma price_tail {A} pv post g (k : Re.mstate -> option A) x :
  number_goes_on post = false ->
  k (Re.MState pv post g) = Some x ->
  Re.m (Re.Seq (Re.Star true comma_group) (Re.Seq (Re.Opt fraction) Re.Eps))
    (Re.MState pv post g) k = Some x.
Proof.
  intros Hpost Hk. cbv [comma_group fraction Re.Cat foldr Re.Plus Re.Opt Re.Chr].
  destruct post as [|c post].
  - run. by rewrite Hk.
  - simpl in Hpost. apply orb_false_iff in Hpost as [Hpost Hdot].
    apply orb_false_iff in Hpost as [Hd Hcomma].
    rewrite (Ascii.eqb_sym c) in Hcomma, Hdot.
    rewrite m_Seq, m_Star_cons. cbv zeta.
    rewrite m_Seq, m_Cls_cons. cbv beta.
    destruct (Ascii.eqb "," c); simpl in Hcomma.
    + rewrite m_Seq, no_three_digits by done. run.
      destruct (Ascii.eqb "." c); simpl in Hdot; [|done].
      by rewrite no_digit_here.
    + run. destruct (Ascii.eqb "." c); simpl in Hdot; [|done].
      by rewrite no_digit_here.
Qed.

(** The digits of "200" are taken up to where the number stops. *)
Lemma price_digits {A} pv post g (k : Re.mstate -> option A) x :
  number_goes_on post = false ->
  k (Re.MState (Some "0"%char) post g) = Some x ->
  Re.m (Re.Plus true (Re.Cls Chr.is_digit)) (Re.MState pv ("200" +:+ post) g) k = Some x.
Proof.
  intros Hpost Hk. rewrite !app_cons, !app_empty_l. cbv [Re.Plus].
  destruct post as [|c post].
  - run. by rewrite Hk.
  - simpl in Hpost. apply orb_false_iff in Hpost as [Hpost _].
    apply orb_false_iff in Hpost as [Hd _].
    run. rewrite Hd. by rewrite Hk.
Qed.

Lemma price_capture pv post :
  number_goes_on post = false ->
  Re.m (Re.Seq
          (Re.Group
             (Re.Seq (Re.Plus true (Re.Cls Chr.is_digit))
                (Re.Seq (Re.Star true comma_group) (Re.Seq (Re.Opt fraction) Re.Eps))))
          Re.Eps)
    (Re.MState pv ("200" +:+ post) None) (fun st => Some (Re.ms_group st))
  = Some (Some "200").
Proof.
  intros Hpost. rewrite m_Seq, m_Group, m_Seq.
  apply price_digits; [done|].
  apply price_tail; [done|].
  rewrite m_Eps. cbn [Re.ms_rest Re.ms_group]. do 2 f_equal.
  rewrite !app_cons, app_empty_l.
  rewrite !take_sub_cons by (simpl; lia). by rewrite take_sub_self.
Qed.

Lemma price_prefix w pv post (R : Re.regex) x :
  w = "under 200" \/ w = max_pound_200 ->
  (forall pv', Re.m R (Re.MState pv' ("200" +:+ post) None)
                 (fun st => Some (Re.ms_group st)) = Some x) ->
  Re.m (Re.Seq (Re.Alt (Re.Word_i "under") (Re.Alt (Re.Word_i "below") (Re.Word_i "max")))
          (Re.Seq (Re.Star true (Re.Cls Chr.re_space))
             (Re.Seq (Re.Opt (Re.Set_i (String Chr.a_circumflex (String Chr.pound "$"))))
                R)))
    (Re.MState pv (w +:+ post) None) (fun st => Some (Re.ms_group st))
  = Some x.
Proof.
  intros Hw HR.
  destruct Hw as [-> | ->]; unfold max_pound_200;
    rewrite !app_cons, !app_empty_l; cbv [Re.Opt Re.Word_i Re.Set_i];
    run; change (String "2" (String "0" (String "0" post))) with ("200" +:+ post);
    rewrite HR; reflexivity.
Qed.

Lemma price_here_200 w pv post :
  w = "under 200" \/ w = max_pound_200 ->
  number_goes_on post = false ->
  Re.match_here price_pattern pv (w +:+ post) = Some (Some "200").
Proof.
  intros Hw Hpost. unfold Re.match_here. cbv [price_pattern Re.Cat foldr].
  apply price_prefix; [done|]. intros pv'.
  by apply (price_capture pv' post).
Qed.

(* ================================================================== *)
(** * The rows that are returned *)

Lemma returned_rows cs eq sort keys q df r :
  sort_contract sort ->
  r ∈ take 10 (sort (scored_rows cs eq keys q df)) ->
  exists row,
    row ∈ surviving q df
    /\ r = (row, unpenalised cs (eq q) (requested_of keys q) row).
Proof.
  intros [Hperm _] Hr.
  apply elem_of_take in Hr as (i & Hr & _). apply list_elem_of_lookup_2 in Hr.
  rewrite Hperm in Hr. unfold scored_rows in Hr.
  apply list_elem_of_In, in_map_iff in Hr as (row & <- & Hrow).
  apply list_elem_of_In in Hrow. eauto.
Qed.

Lemma alpha_not_quote c :
  Chr.is_alpha c = true ->
  Str.mem c (String "034" EmptyString) = false /\ Str.mem c "'" = false.
Proof. destruct c as [[] [] [] [] [] [] [] []]; vm_compute; intuition congruence. Qed.

(** A location made of letters is left as it is by the cleaning step. *)
Lemma clean_location_letters loc :
  Str.all Chr.is_alpha loc = true -> clean_location (Some loc) = Some loc.
Proof.
  intros Hl. unfold clean_location. destruct (Str.truthy loc); [|done].
  rewrite strip_letters by done.
  rewrite (strip_chars_absent (String "034" EmptyString) loc).
  - rewrite (strip_chars_absent "'" loc); [done|].
    eapply all_impl; [|exact Hl]. intros c Hc.
    apply alpha_not_quote in Hc as [_ ->]. done.
  - eapply all_impl; [|exact Hl]. intros c Hc.
    apply alpha_not_quote in Hc as [-> _]. done.
Qed.

Lemma surviving_filters q df row :
  row ∈ surviving q df ->
  (forall mp, max_price_of q = Some mp -> (price row <= mp)%Q)
  /\ (forall loc, location_of q = Some loc -> loc <> EmptyString ->
        Str.lower (city row) = Str.lower loc).
Proof.
  unfold surviving. intros Hrow. split.
  - intros mp Hmp. rewrite Hmp in Hrow. apply filter_price_le in Hrow.
    by apply Qle_bool_iff.
  - intros loc Hloc Hne. rewrite Hloc in Hrow.
    rewrite clean_location_letters in Hrow by (by apply location_letters in Hloc).
    assert (Hin : row ∈ filter_location (Some loc) df).
    { destruct (max_price_of q); [|done].
      unfold filter_price in Hrow. by apply list_elem_of_filter in Hrow as [_ ?]. }
    unfold filter_location in Hin. destruct loc; [done|]. simpl in Hin.
    by apply list_elem_of_filter in Hin as [? _].
Qed.

(* ================================================================== *)
(** * Scoring: concrete instance *)

Lemma final_score_formula_witness :
  (forall mp, Some (60 # 1) = Some mp -> (0 < mp)%Q)
  /\ exists s,
       final_score Sample.similarity Sample.hut [] ["wifi"; "hot tub"] (Some (60 # 1)) = Ok s
       /\ (s == spec_score Sample.similarity Sample.hut [] ["wifi"; "hot tub"] (Some (60 # 1)))%Q.
Proof.
  split.
  - intros mp [= <-]. reflexivity.
  - apply final_score_formula. intros mp [= <-]. reflexivity.
Defined.

(* ================================================================== *)
(** * A price ceiling of zero *)




(* ================================================================== *)
(** * Number of returned rows *)




(* ================================================================== *)
(** * The filters *)

(** C9, as the code behaves: the search returns a result when some row
    survives the filters, and every listing of a returned result has a
    price of at most the extracted ceiling, and, when the extracted
    location is not empty, a city equal to it up to case; the cleaning
    step leaves such a location as it is.  An empty extracted location
    filters nothing. *)
Theorem search_respects_filters (cosine_similarity : embedding -> embedding -> Q)
    (embed_query : string -> embedding)
    (sort_values : list ScoredListing -> list ScoredListing)
    (df : list Listing) (q : string) (keys : list string) :
  sort_contract sort_values ->
  exists i,
    extract_intent q = Ok i
    /\ (surviving q df <> [] ->
        exists rows,
          search_listings cosine_similarity embed_query sort_values df q keys = Ok rows)
    /\ forall rows,
         search_listings cosine_similarity embed_query sort_values df q keys = Ok rows ->
         forall r, r ∈ rows ->
           (forall mp, max_price i = Some mp -> (price (fst r) <= mp)%Q)
           /\ (forall loc, location i = Some loc -> loc <> EmptyString ->
                 clean_location (Some loc) = Some loc
                 /\ Str.lower (city (fst r)) = Str.lower loc).
Proof.
  intros Hsort. rewrite extract_intent_ok.
  eexists. split; [reflexivity|]. split.
  - intros Hne. rewrite search_listings_some by done. eauto.
  - intros rows Hrows r Hr. apply search_listings_Ok in Hrows as [_ ->].
    apply (returned_rows _ _ _ _ _ _ _ Hsort) in Hr as (row & Hrow & ->).
    cbn [fst max_price location].
    apply surviving_filters in Hrow as [Hp Hl]. split; [exact Hp|].
    intros loc Hloc Hne. split; [|by apply Hl].
    apply clean_location_letters. by apply location_letters in Hloc.
Qed.

Lemma search_respects_filters_witness :
  exists rows,
    search_listings Sample.similarity Sample.embed sort_stable
      [Sample.loft; Sample.attic; Sample.hut] "flat in Rome under 100" key_amenities
    = Ok rows
    /\ forall r, r ∈ rows ->
         (price (fst r) <= 100)%Q /\ Str.lower (city (fst r)) = Str.lower "Rome".
Proof.
  destruct (search_respects_filters Sample.similarity Sample.embed sort_stable
              [Sample.loft; Sample.attic; Sample.hut] "flat in Rome under 100"
              key_amenities sort_stable_contract) as (i & Hi & Hsome & Hall).
  assert (Hi' : extract_intent "flat in Rome under 100"
                = Ok {| location := Some "Rome"; max_price := Some 100%Q;
                        amenities := [] |}) by (vm_compute; reflexivity).
  rewrite Hi' in Hi. injection Hi as <-.
  destruct Hsome as [rows Hrows]; [vm_compute; discriminate|].
  exists rows. split; [exact Hrows|]. intros r Hr.
  destruct (Hall rows Hrows r Hr) as [Hp Hl]. split.
  - by apply Hp.
  - by apply (Hl "Rome").
Defined.

(** C9, counterexample: the query below yields the empty string as its
    location; no row is filtered, and a listing in Rome is returned. *)
Lemma empty_location_filters_nothing :
  extract_intent "rooms in   2 beds"
  = Ok {| location := Some EmptyString; max_price := None; amenities := [] |}
  /\ search_listings Sample.similarity Sample.embed sort_stable
       [Sample.loft] "rooms in   2 beds" key_amenities
     = Ok [(Sample.loft, 1 # 2)]
  /\ Str.lower (city Sample.loft) <> Str.lower EmptyString.
Proof. split; [|split]; [vm_compute; reflexivity..|discriminate]. Qed.

(* ================================================================== *)
(** * Amenities *)

(** C5, evaluated at the failing input: "kitchen" is a canonical amenity
    and [extract_intent] recognises it, yet [normalize_amenity] returns no
    match for it, because it iterates over the synonym dictionary only. *)
Theorem normalize_amenity_misses_kitchen :
  "kitchen" ∈ key_amenities
  /\ extract_intent "kitchen"
     = Ok {| location := None; max_price := None; amenities := ["kitchen"] |}
  /\ normalize_amenity "kitchen" = None
  /\ normalize_amenity "Kitchen with AC" = Some "air conditioning".
Proof.
  split; [|split; [|split]]; [|vm_compute; reflexivity..].
  apply list_elem_of_In. simpl. tauto.
Qed.

(** C6: the intent holds an amenity of the vocabulary exactly when the
    query mentions it, that is, when its canonical name or one of its
    synonyms occurs in the query, case ignored; every amenity is decided
    on its own, and a query that contains "jacuzzi" yields "hot tub". *)
Theorem extract_intent_amenities (q : string) :
  exists i,
    extract_intent q = Ok i
    /\ (forall a, a ∈ key_amenities -> (a ∈ amenities i <-> mentions q a))
    /\ (Substring "jacuzzi" q -> "hot tub" ∈ amenities i).
Proof.
  rewrite extract_intent_ok. eexists. split; [reflexivity|]. cbn [amenities].
  split.
  - intros a Ha. rewrite elem_of_elements, found_amenities_spec. tauto.
  - intros (pre & post & ->).
    rewrite elem_of_elements, found_amenities_spec. split.
    + apply list_elem_of_In. simpl. tauto.
    + right. exists "jacuzzi". split.
      * apply list_elem_of_In. simpl. tauto.
      * unfold Substring_ci, Substring. rewrite !lower_app.
        by exists (Str.lower pre), (Str.lower post).
Qed.

Lemma extract_intent_amenities_witness :
  exists i,
    extract_intent "no pets allowed, a jacuzzi" = Ok i
    /\ "pets allowed" ∈ amenities i
    /\ "hot tub" ∈ amenities i.
Proof.
  destruct (extract_intent_amenities "no pets allowed, a jacuzzi")
    as (i & Hi & Hiff & Hjac).
  exists i. split; [exact Hi|]. split.
  - apply Hiff.
    + apply list_elem_of_In. simpl. tauto.
    + left. by exists "no ", ", a jacuzzi".
  - apply Hjac. by exists "no pets allowed, a ", EmptyString.
Defined.

(* ================================================================== *)
(** * Location and price ceiling *)

(** C7, as the code behaves: when the first match of the location pattern
    starts at an occurrence of "in London" or "at London" that is followed
    by the end of the text, white space or a comma, the location is
    "London"; when the pattern matches nowhere, the location is absent. *)
Theorem location_London :
  (forall pre w post : string,
     w = "in London" \/ w = "at London" ->
     first_match_at loc_pattern (pre +:+ w +:+ post) (String.length pre) ->
     ends_word post = true ->
     exists i, extract_intent (pre +:+ w +:+ post) = Ok i
               /\ location i = Some "London")
  /\ (forall q : string,
        Re.search loc_pattern q = None ->
        exists i, extract_intent q = Ok i /\ location i = None).
Proof.
  split.
  - intros pre w post Hw (mo & Hs & Hst) Hpost.
    rewrite extract_intent_ok. eexists. split; [reflexivity|]. cbn [location].
    unfold location_of. rewrite Hs.
    apply first_match_here in Hs; [|exact Hst].
    rewrite (loc_here_London w) in Hs by done.
    destruct (Re.is_word _); [done|]. injection Hs as <-. reflexivity.
  - intros q Hq. rewrite extract_intent_ok. eexists. split; [reflexivity|].
    cbn [location]. unfold location_of. by rewrite Hq.
Qed.

Lemma location_London_witness :
  exists i, extract_intent ("a flat " +:+ "at London" +:+ ", with wifi") = Ok i
            /\ location i = Some "London".
Proof.
  apply (proj1 location_London "a flat " "at London" ", with wifi").
  - by right.
  - eexists. split; vm_compute; reflexivity.
  - reflexivity.
Defined.

(** C7, counterexample: the query contains "in London" and the location is
    "Londonderry". *)
Lemma location_Londonderry :
  Substring "in London" "flat in Londonderry"
  /\ extract_intent "flat in Londonderry"
     = Ok {| location := Some "Londonderry"; max_price := None; amenities := [] |}.
Proof.
  split; [by exists "flat ", "derry"|vm_compute; reflexivity].
Qed.

(** C8, as the code behaves: when the first match of the price pattern
    starts at an occurrence of "under 200" or "max £200" after which the
    number does not go on (no digit, no comma with three digits, no point
    with a digit), max_price is 200; when the pattern matches nowhere,
    max_price is absent. *)
Theorem max_price_200 :
  (forall pre w post : string,
     w = "under 200" \/ w = max_pound_200 ->
     first_match_at price_pattern (pre +:+ w +:+ post) (String.length pre) ->
     number_goes_on post = false ->
     exists i, extract_intent (pre +:+ w +:+ post) = Ok i
               /\ max_price i = Some 200%Q)
  /\ (forall q : string,
        Re.search price_pattern q = None ->
        exists i, extract_intent q = Ok i /\ max_price i = None).
Proof.
  split.
  - intros pre w post Hw (mo & Hs & Hst) Hpost.
    rewrite extract_intent_ok. eexists. split; [reflexivity|]. cbn [max_price].
    unfold max_price_of. rewrite Hs.
    apply first_match_here in Hs; [|exact Hst].
    rewrite (price_here_200 w) in Hs by done.
    injection Hs as <-. reflexivity.
  - intros q Hq. rewrite extract_intent_ok. eexists. split; [reflexivity|].
    cbn [max_price]. unfold max_price_of. by rewrite Hq.
Qed.

Lemma max_price_200_witness :
  exists i, extract_intent ("a room, " +:+ max_pound_200 +:+ ", in Rome") = Ok i
            /\ max_price i = Some 200%Q.
Proof.
  apply (proj1 max_price_200 "a room, " max_pound_200 ", in Rome").
  - by right.
  - eexists. split; vm_compute; reflexivity.
  - reflexivity.
Defined.

(** C8, counterexample: the query contains "under 200" and max_price is
    2000. *)
Lemma max_price_2000 :
  Substring "under 200" "flat under 2000"
  /\ extract_intent "flat under 2000"
     = Ok {| location := None; max_price := Some 2000%Q; amenities := [] |}.
Proof.
  split; [by exists "flat ", "0"|vm_compute; reflexivity].
Qed.

(** The currency set of the pattern at work: the character U+00C2 before
    the number is skipped like the pound sign, so the first of the two
    prices below is the one extracted. *)
Example price_after_a_circumflex :
  max_price_of ("under " +:+ String Chr.a_circumflex "100") = Some 100%Q
  /\ max_price_of ("under " +:+ String Chr.a_circumflex "5 then under 200")
     = Some 5%Q
  /\ max_price_of ("max " +:+ String Chr.pound "200") = Some 200%Q.
Proof. repeat split; vm_compute; reflexivity. Qed.



(* ================================================================== *)
(** * Further properties of the extractor *)

(** X1: [extract_intent] raises nothing, whatever the query: the price
    text it captures always parses and group 1 always takes part in a
    match.  Hence the fallback of [safe_extract_intent] is never taken. *)
Theorem extract_intent_never_raises (q : string) :
  exists i, extract_intent q = Ok i /\ safe_extract_intent q = i.
Proof.
  unfold safe_extract_intent. rewrite extract_intent_ok. eauto.
Qed.

Lemma digit_value_nonneg c : Chr.is_digit c = true -> (0 <= Num.digit_value c)%Z.
Proof.
  unfold Chr.is_digit, Chr.in_range, Num.digit_value.
  rewrite andb_true_iff, !N.leb_le. lia.
Qed.

Lemma digits_nonneg s : forall acc,
  Str.all Chr.is_digit s = true -> (0 <= acc)%Z -> (0 <= Num.digits acc s)%Z.
Proof.
  induction s as [|c s IH]; intros acc Hs Hacc; simpl in *; [done|].
  apply andb_true_iff in Hs as [Hc Hs]. apply IH; [done|].
  apply digit_value_nonneg in Hc. lia.
Qed.

Lemma float_nonneg s v : Num.float s = Ok v -> (0 <= v)%Q.
Proof.
  unfold Num.float. destruct (Num.split_dot s) as [i [f|]].
  - destruct (_ && _) eqn:E; [|done]. intros [= <-].
    apply andb_true_iff in E as [E Hf]. apply andb_true_iff in E as [_ Hi].
    unfold Qle. cbn [Qnum Qden]. rewrite Z.mul_0_l, Z.mul_1_r.
    apply digits_nonneg; [done|]. by apply digits_nonneg.
  - destruct (_ && _) eqn:E; [|done]. intros [= <-].
    apply andb_true_iff in E as [_ Hi].
    unfold Qle. cbn [Qnum Qden inject_Z]. rewrite Z.mul_0_l, Z.mul_1_r.
    by apply digits_nonneg.
Qed.

(** X2: an extracted price ceiling is never negative: the pattern takes no
    sign. *)
Theorem max_price_nonneg (q : string) (i : Intent) (mp : Q) :
  extract_intent q = Ok i -> max_price i = Some mp -> (0 <= mp)%Q.
Proof.
  rewrite extract_intent_ok. intros [= <-]. cbn [max_price].
  unfold max_price_of. destruct (Re.search _ _) as [mo|]; [|done].
  destruct (Re.group mo) as [s|]; [|done].
  destruct (Num.float _) as [v|] eqn:E; [|done].
  intros [= <-]. by apply float_nonneg in E.
Qed.

Lemma max_price_nonneg_witness : (0 <= 150)%Q.
Proof.
  apply (max_price_nonneg "flat in Rome under 150"
           {| location := Some "Rome"; max_price := Some 150%Q; amenities := [] |}).
  - vm_compute. reflexivity.
  - reflexivity.
Defined.

(** X3: the amenities of an intent are names of the vocabulary, each at
    most once. *)
Theorem amenities_in_vocabulary (q : string) (i : Intent) :
  extract_intent q = Ok i ->
  NoDup (amenities i) /\ forall a, a ∈ amenities i -> a ∈ key_amenities.
Proof.
  rewrite extract_intent_ok. intros [= <-]. cbn [amenities]. split.
  - apply NoDup_elements.
  - intros a. rewrite elem_of_elements, found_amenities_spec. tauto.
Qed.

Lemma amenities_in_vocabulary_witness :
  NoDup ["wifi"; "hot tub"]
  /\ forall a, a ∈ ["wifi"; "hot tub"] -> a ∈ key_amenities.
Proof.
  apply (amenities_in_vocabulary "wifi, internet and a hot tub"
           {| location := None; max_price := None; amenities := ["wifi"; "hot tub"] |}).
  vm_compute. reflexivity.
Defined.

Lemma filter_all {A} (P : A -> Prop) `{!forall x, Decision (P x)} (l : list A) :
  (forall x, x ∈ l -> P x) -> filter P l = l.
Proof.
  induction l as [|x l IH]; intros Hall; [done|].
  rewrite filter_cons_True by (apply Hall; left). f_equal. apply IH.
  intros y Hy. apply Hall. by right.
Qed.

(** X4: the filter that [search_listings] puts on the extracted amenities
    keeps exactly those in the vocabulary it is given, and changes nothing
    when that is [key_amenities], as in the dashboard's call. *)
Theorem requested_amenities_filter (q : string) (i : Intent) (keys : list string) :
  extract_intent q = Ok i ->
  (forall a, a ∈ requested keys i <-> a ∈ amenities i /\ a ∈ keys)
  /\ requested key_amenities i = amenities i.
Proof.
  intros Hi. split.
  - intros a. unfold requested. rewrite list_elem_of_filter. tauto.
  - unfold requested. apply filter_all.
    by apply (amenities_in_vocabulary q i).
Qed.

Lemma requested_amenities_filter_witness :
  (forall a, a ∈ requested ["wifi"] {| location := None; max_price := None;
                                       amenities := ["wifi"; "hot tub"] |}
             <-> a ∈ ["wifi"; "hot tub"] /\ a ∈ ["wifi"])
  /\ requested key_amenities {| location := None; max_price := None;
                                amenities := ["wifi"; "hot tub"] |}
     = ["wifi"; "hot tub"].
Proof.
  apply (requested_amenities_filter "wifi, internet and a hot tub").
  vm_compute. reflexivity.
Defined.

Lemma Substring_ci_app sub q pre post :
  Substring_ci sub q -> Substring_ci sub (pre +:+ q +:+ post).
Proof.
  unfold Substring_ci, Substring. intros (u & v & E).
  exists (Str.lower pre +:+ u), (v +:+ Str.lower post).
  by rewrite !lower_app, E, !app_assoc_str.
Qed.

(** X5: text added before or after a query never removes an amenity, as
    no part of the query can cancel a match. *)
Theorem amenities_monotone (pre q post : string) :
  exists i j,
    extract_intent q = Ok i
    /\ extract_intent (pre +:+ q +:+ post) = Ok j
    /\ forall a, a ∈ amenities i -> a ∈ amenities j.
Proof.
  rewrite !extract_intent_ok. eexists _, _. split; [reflexivity|]. split; [reflexivity|].
  cbn [amenities]. intros a. rewrite !elem_of_elements, !found_amenities_spec.
  intros [Ha Hm]. split; [done|].
  destruct Hm as [Hm|(syn & Hsyn & Hm)].
  - left. by apply Substring_ci_app.
  - right. exists syn. split; [done|]. by apply Substring_ci_app.
Qed.

Lemma chr_lower_idem c : Chr.lower (Chr.lower c) = Chr.lower c.
Proof. destruct c as [[] [] [] [] [] [] [] []]; vm_compute; reflexivity. Qed.

Lemma lower_idem s : Str.lower (Str.lower s) = Str.lower s.
Proof.
  unfold Str.lower. induction s as [|c s IH]; [done|].
  simpl. by rewrite chr_lower_idem, IH.
Qed.

Lemma found_amenities_lower names q1 q2 :
  Str.lower q1 = Str.lower q2 -> found_amenities names q1 = found_amenities names q2.
Proof. unfold found_amenities. by intros ->. Qed.

Lemma normalize_amenity_lower t1 t2 :
  Str.lower t1 = Str.lower t2 -> normalize_amenity t1 = normalize_amenity t2.
Proof. unfold normalize_amenity. by intros ->. Qed.

(** X6: amenity matching ignores case: two texts that agree once lowered
    give the same amenities and the same normalized amenity; in particular
    a text and its lowered form do. *)
Theorem amenities_ignore_case (q1 q2 : string) :
  Str.lower q1 = Str.lower q2 ->
  (exists i1 i2,
     extract_intent q1 = Ok i1 /\ extract_intent q2 = Ok i2
     /\ amenities i1 = amenities i2)
  /\ normalize_amenity q1 = normalize_amenity q2.
Proof.
  intros Hl. split.
  - rewrite !extract_intent_ok. eexists _, _. split; [reflexivity|].
    split; [reflexivity|]. cbn [amenities]. by rewrite (found_amenities_lower _ q1 q2).
  - by apply normalize_amenity_lower.
Qed.

Lemma amenities_ignore_case_witness :
  (exists i1 i2,
     extract_intent "Flat with WiFi" = Ok i1
     /\ extract_intent (Str.lower "Flat with WiFi") = Ok i2
     /\ amenities i1 = amenities i2)
  /\ normalize_amenity "Flat with WiFi" = normalize_amenity (Str.lower "Flat with WiFi").
Proof.
  apply (amenities_ignore_case "Flat with WiFi" (Str.lower "Flat with WiFi")).
  symmetry. apply lower_idem.
Defined.

(** X7: synonyms are matched as substrings, not as words: every query that
    contains "jacuzzi" also yields "air conditioning" (through the synonym
    "ac"), and every query that contains "space" yields "hot tub" (through
    "spa"). *)
Theorem synonyms_match_inside_words (pre post : string) :
  (exists i, extract_intent (pre +:+ "jacuzzi" +:+ post) = Ok i
             /\ "air conditioning" ∈ amenities i)
  /\ (exists i, extract_intent (pre +:+ "space" +:+ post) = Ok i
                /\ "hot tub" ∈ amenities i).
Proof.
  split; rewrite extract_intent_ok; eexists; (split; [reflexivity|]);
    cbn [amenities]; rewrite elem_of_elements, found_amenities_spec;
    (split; [apply list_elem_of_In; simpl; tauto|]); right.
  - exists "ac". split; [apply list_elem_of_In; simpl; tauto|].
    apply Substring_ci_app. by exists "j", "uzzi".
  - exists "spa". split; [apply list_elem_of_In; simpl; tauto|].
    apply Substring_ci_app. by exists EmptyString, "ce".
Qed.

(* ================================================================== *)
(** * [normalize_amenity] against [extract_intent] *)

(** The loop of [normalize_amenity] returns the first key whose entry is
    hit. *)
Lemma normalize_items (lt : string) (P : string -> Prop)
    `{!forall a, Decision (P a)} (d : list (string * list string)) :
  (forall c vs, (c, vs) ∈ d ->
     Str.contains c lt || existsb (fun v => Str.contains v lt) vs = true <-> P c) ->
  (fix items (d : list (string * list string)) : option string :=
     match d with
     | [] => None
     | (canonical, variants) :: d' =>
         if Str.contains canonical lt then Some canonical
         else if existsb (fun v => Str.contains v lt) variants
              then Some canonical
              else items d'
     end) d
  = head (filter P (map fst d)).
Proof.
  induction d as [|[c vs] d IH]; intros Hd; [done|].
  assert (Hc := Hd c vs ltac:(left)). cbn [map fst].
  destruct (Str.contains c lt) eqn:E1; simpl in Hc.
  - rewrite filter_cons_True by tauto. done.
  - destruct (existsb _ vs) eqn:E2.
    + rewrite filter_cons_True by tauto. done.
    + rewrite filter_cons_False by (intros HP; apply Hc in HP; done).
      apply IH. intros c' vs' Hin. apply Hd. by right.
Qed.

Lemma hit_mentions t c vs :
  Str.lower c = c ->
  Forall (fun v => Str.lower v = v) vs ->
  dict_get AMENITY_SYNONYMS c [] = vs ->
  Str.contains c (Str.lower t) || existsb (fun v => Str.contains v (Str.lower t)) vs = true
  <-> mentions t c.
Proof.
  intros Hc Hvs Hget. unfold mentions. rewrite Hget, orb_true_iff, existsb_exists.
  rewrite <- contains_ci, Hc.
  split; (intros [?|(v & Hin & Hv)]; [by left|right; exists v]).
  - rewrite <- contains_ci. apply list_elem_of_In in Hin.
    rewrite Forall_forall in Hvs. rewrite (Hvs v Hin). done.
  - rewrite <- contains_ci in Hv. rewrite Forall_forall in Hvs.
    rewrite (Hvs v Hin) in Hv. split; [by apply list_elem_of_In|done].
Qed.

Lemma synonym_entries :
  Forall (fun e : string * list string =>
            Str.lower (fst e) = fst e
            /\ Forall (fun v => Str.lower v = v) (snd e)
            /\ dict_get AMENITY_SYNONYMS (fst e) [] = snd e
            /\ fst e ∈ key_amenities)
    AMENITY_SYNONYMS.
Proof.
  repeat constructor; apply list_elem_of_In; simpl; tauto.
Qed.

(** X8: [normalize_amenity] returns the first key of [AMENITY_SYNONYMS],
    in the order of the dictionary, that [extract_intent] finds in the same
    text, and no match when it finds none of these keys. *)
Theorem normalize_amenity_first_key (t : string) :
  exists i,
    extract_intent t = Ok i
    /\ normalize_amenity t
       = head (filter (fun a => a ∈ amenities i) (map fst AMENITY_SYNONYMS)).
Proof.
  rewrite extract_intent_ok. eexists. split; [reflexivity|]. cbn [amenities].
  unfold normalize_amenity. cbv zeta.
  apply normalize_items. intros c vs Hin.
  pose proof synonym_entries as He. rewrite Forall_forall in He.
  destruct (He _ Hin) as (Hc & Hvs & Hget & Hkey). cbn [fst snd] in *.
  rewrite hit_mentions by done.
  rewrite elem_of_elements, found_amenities_spec. tauto.
Qed.

(* ================================================================== *)
(** * Keywords *)

Lemma search_from_suffix r : forall s prev i mo,
  Re.search_from r prev s i = Some mo ->
  exists pre s' pv, s = pre +:+ s' /\ Re.match_here r pv s' = Some (Re.group mo).
Proof.
  induction s as [|c s IH]; intros prev i mo H; simpl in H.
  - destruct (Re.match_here r prev EmptyString) eqn:E; [|done].
    injection H as <-. by exists EmptyString, EmptyString, prev.
  - destruct (Re.match_here r prev (String c s)) eqn:E.
    + injection H as <-. by exists EmptyString, (String c s), prev.
    + apply IH in H as (pre & s' & pv & -> & H).
      by exists (String c pre), s', pv.
Qed.

(** A word matched without regard to case reads as that word once
    lowered. *)
Lemma Matches_Word_i w : forall st st',
  Re.Matches (Re.Word_i w) st st' ->
  exists u, Re.ms_rest st = u +:+ Re.ms_rest st' /\ Str.lower u = Str.lower w.
Proof.
  induction w as [|c w IH]; intros st st' H; simpl in H.
  - inversion H; subst. by exists EmptyString.
  - inversion H as [| |r1 r2 st0 st1 st2 H1 H2| | | | | | |]; subst.
    inversion H1 as [|p pv x s g Hx| | | | | | | |]; subst.
    apply IH in H2 as (u & E & Hu). simpl in E.
    exists (String x u). split; [by rewrite app_cons, <- E|].
    apply Ascii.eqb_eq in Hx. unfold Str.lower in *. simpl. by rewrite Hx, Hu.
Qed.

Lemma keyword_found r (words : list string) q mo :
  Re.search r q = Some mo ->
  (forall pv s g,
     Re.match_here r pv s = Some g ->
     exists w st st', w ∈ words /\ Re.ms_rest st = s /\ Re.Matches (Re.Word_i w) st st') ->
  exists w, w ∈ words /\ Substring_ci w q.
Proof.
  intros Hs Hr. apply search_from_suffix in Hs as (pre & s' & pv & -> & Hm).
  apply Hr in Hm as (w & st & st' & Hw & <- & HM).
  apply Matches_Word_i in HM as (u & E & Hu).
  exists w. split; [done|]. unfold Substring_ci, Substring.
  exists (Str.lower pre), (Str.lower (Re.ms_rest st')).
  by rewrite E, !lower_app, Hu.
Qed.

Lemma loc_keyword pv s g :
  Re.match_here loc_pattern pv s = Some g ->
  exists w st st', w ∈ ["in"; "at"] /\ Re.ms_rest st = s /\ Re.Matches (Re.Word_i w) st st'.
Proof.
  unfold Re.match_here. cbv [loc_pattern Re.Cat foldr]. intros H.
  apply m_seq_inv in H as (st1 & H1 & H). inversion H1; subst.
  apply m_seq_inv in H as (st2 & H2 & _).
  inversion H2; subst.
  - exists "in", (Re.MState pv s None), st2.
    split; [by left|]. split; [reflexivity|done].
  - exists "at", (Re.MState pv s None), st2.
    split; [right; left|]. split; [reflexivity|done].
Qed.

Lemma price_keyword pv s g :
  Re.match_here price_pattern pv s = Some g ->
  exists w st st',
    w ∈ ["under"; "below"; "max"] /\ Re.ms_rest st = s /\ Re.Matches (Re.Word_i w) st st'.
Proof.
  unfold Re.match_here. cbv [price_pattern Re.Cat foldr]. intros H.
  apply m_seq_inv in H as (st1 & H1 & _).
  inversion H1 as [| | |r1 r2 st0 st0' Hl|r1 r2 st0 st0' Hr| | | | |]; subst.
  - exists "under", (Re.MState pv s None), st1.
    split; [by left|]. split; [reflexivity|done].
  - inversion Hr as [| | |r1 r2 st0 st0' Hl'|r1 r2 st0 st0' Hr'| | | | |]; subst.
    + exists "below", (Re.MState pv s None), st1.
      split; [right; left|]. split; [reflexivity|done].
    + exists "max", (Re.MState pv s None), st1.
      split; [do 2 right; left|]. split; [reflexivity|done].
Qed.

Lemma location_needs_keyword q :
  location_of q <> None -> Substring_ci "in" q \/ Substring_ci "at" q.
Proof.
  unfold location_of. destruct (Re.search loc_pattern q) as [mo|] eqn:E; [|done].
  intros _. eapply (keyword_found _ ["in"; "at"]) in E as (w & Hw & Hs);
    [|apply loc_keyword].
  apply list_elem_of_In in Hw. simpl in Hw.
  destruct Hw as [<-|[<-|[]]]; auto.
Qed.

Lemma price_needs_keyword q :
  max_price_of q <> None ->
  Substring_ci "under" q \/ Substring_ci "below" q \/ Substring_ci "max" q.
Proof.
  unfold max_price_of. destruct (Re.search price_pattern q) as [mo|] eqn:E; [|done].
  intros _. eapply (keyword_found _ ["under"; "below"; "max"]) in E as (w & Hw & Hs);
    [|apply price_keyword].
  apply list_elem_of_In in Hw. simpl in Hw.
  destruct Hw as [<-|[<-|[<-|[]]]]; auto.
Qed.

(** X9: a location is extracted only from a query that contains "in" or
    "at", and a price ceiling only from one that contains "under",
    "below" or "max", case ignored. *)
Theorem filters_need_keywords (q : string) :
  exists i,
    extract_intent q = Ok i
    /\ (location i <> None -> Substring_ci "in" q \/ Substring_ci "at" q)
    /\ (max_price i <> None ->
        Substring_ci "under" q \/ Substring_ci "below" q \/ Substring_ci "max" q).
Proof.
  rewrite extract_intent_ok. eexists. split; [reflexivity|].
  cbn [location max_price]. split.
  - apply location_needs_keyword.
  - apply price_needs_keyword.
Qed.

Lemma filters_need_keywords_witness :
  (Substring_ci "in" "flat in Rome under 150" \/ Substring_ci "at" "flat in Rome under 150")
  /\ (Substring_ci "under" "flat in Rome under 150"
      \/ Substring_ci "below" "flat in Rome under 150"
      \/ Substring_ci "max" "flat in Rome under 150").
Proof.
  destruct (filters_need_keywords "flat in Rome under 150") as (i & Hi & Hl & Hp).
  assert (Hi' : extract_intent "flat in Rome under 150"
                = Ok {| location := Some "Rome"; max_price := Some 150%Q;
                        amenities := [] |}) by (vm_compute; reflexivity).
  rewrite Hi' in Hi. injection Hi as <-.
  split; [apply Hl|apply Hp]; discriminate.
Defined.

(* ================================================================== *)
(** * Further properties of the scorer *)

Lemma flags_sum_bounds row (req : list string) :
  (forall a, a ∈ req -> (0 <= row_get row a <= 1)%Q) ->
  (0 <= foldr (fun a acc => row_get row a + acc) 0 req <= len req)%Q.
Proof.
  induction req as [|a req IH]; intros H.
  - unfold len. simpl. split; apply Qle_refl.
  - assert (Ha := H a ltac:(left)).
    destruct IH as [IH1 IH2]; [intros b Hb; apply H; by right|].
    assert (El : (len (a :: req) == 1 + len req)%Q).
    { unfold len. cbn [length]. rewrite Nat2Z.inj_succ, <- Z.add_1_l, inject_Z_plus.
      reflexivity. }
    cbn [foldr]. rewrite El. split; lra.
Qed.

Lemma amenity_ratio_bounds row (req : list string) :
  (forall a, a ∈ req -> (0 <= row_get row a <= 1)%Q) ->
  (0 <= spec_amenity_ratio row req <= 1)%Q.
Proof.
  intros H. destruct req as [|a req]; [simpl; split; lra|].
  apply flags_sum_bounds in H as [H1 H2].
  assert (Hlen : (0 < len (a :: req))%Q).
  { unfold len, Qlt. simpl. lia. }
  unfold spec_amenity_ratio. split.
  - apply Qle_shift_div_l; [done|]. lra.
  - apply Qle_shift_div_r; [done|]. lra.
Qed.

(** X10: when the amenity flags read for a row lie between 0 and 1 and no
    price penalty applies (no ceiling, or a price within it), the score
    lies between the semantic similarity and the similarity plus 1. *)
Theorem score_within_one (cosine_similarity : embedding -> embedding -> Q)
    (row : Listing) (query_embedding : embedding)
    (requested_amenities : list string) (max_price : option Q) :
  (forall a, a ∈ requested_amenities -> (0 <= row_get row a <= 1)%Q) ->
  (forall mp, max_price = Some mp -> (price row <= mp)%Q) ->
  exists s,
    final_score cosine_similarity row query_embedding requested_amenities max_price = Ok s
    /\ (cosine_similarity (description_embedding row) query_embedding <= s
        <= cosine_similarity (description_embedding row) query_embedding + 1)%Q.
Proof.
  intros Hflags Hprice.
  rewrite final_score_unpenalised
    by (intros mp Hmp; apply Qle_bool_iff; by apply Hprice).
  eexists. split; [reflexivity|]. unfold unpenalised.
  rewrite amenity_sim_spec. apply amenity_ratio_bounds in Hflags. lra.
Qed.

Lemma score_within_one_witness :
  exists s,
    final_score Sample.similarity Sample.hut [] ["wifi"; "hot tub"] (Some (90 # 1)) = Ok s
    /\ (Sample.similarity (description_embedding Sample.hut) [] <= s
        <= Sample.similarity (description_embedding Sample.hut) [] + 1)%Q.
Proof.
  apply (score_within_one Sample.similarity Sample.hut [] ["wifi"; "hot tub"] (Some (90 # 1))).
  - intros a Ha. apply list_elem_of_In in Ha. simpl in Ha.
    destruct Ha as [<-|[<-|[]]]; vm_compute; split; discriminate.
  - intros mp [= <-]. vm_compute. discriminate.
Defined.

(** X11: for a positive price ceiling the price term can only lower the
    score: the score is at most semantic + amenity_ratio, and it is equal
    to it when the price is within the ceiling. *)
Theorem penalty_only_lowers (cosine_similarity : embedding -> embedding -> Q)
    (row : Listing) (query_embedding : embedding)
    (requested_amenities : list string) (mp : Q) :
  (0 < mp)%Q ->
  exists s,
    final_score cosine_similarity row query_embedding requested_amenities (Some mp) = Ok s
    /\ (s <= cosine_similarity (description_embedding row) query_embedding
             + spec_amenity_ratio row requested_amenities)%Q
    /\ ((price row <= mp)%Q ->
        (s == cosine_similarity (description_embedding row) query_embedding
              + spec_amenity_ratio row requested_amenities)%Q).
Proof.
  intros Hmp.
  destruct (final_score_formula cosine_similarity row query_embedding
              requested_amenities (Some mp)) as (s & Hs & Es).
  { by intros ? [= <-]. }
  exists s. split; [exact Hs|]. unfold spec_score, spec_price_penalty in Es.
  pose proof (Q.le_max_l 0 ((price row - mp) / mp)) as Hnn.
  split; [lra|].
  intros Hle. rewrite Q.max_l in Es; [lra|].
  apply Qle_shift_div_r; [done|]. lra.
Qed.

Lemma penalty_only_lowers_witness :
  exists s,
    final_score Sample.similarity Sample.hut [] ["wifi"] (Some (60 # 1)) = Ok s
    /\ (s <= Sample.similarity (description_embedding Sample.hut) []
             + spec_amenity_ratio Sample.hut ["wifi"])%Q
    /\ ((price Sample.hut <= 60 # 1)%Q ->
        (s == Sample.similarity (description_embedding Sample.hut) []
              + spec_amenity_ratio Sample.hut ["wifi"])%Q).
Proof.
  apply (penalty_only_lowers Sample.similarity Sample.hut [] ["wifi"] (60 # 1)).
  reflexivity.
Defined.

(** X12: for a positive price ceiling, of two rows that differ in price
    only, the dearer one does not score higher. *)
Theorem dearer_not_higher (cosine_similarity : embedding -> embedding -> Q)
    (row1 row2 : Listing) (query_embedding : embedding)
    (requested_amenities : list string) (mp : Q) :
  (0 < mp)%Q ->
  description_embedding row1 = description_embedding row2 ->
  flags row1 = flags row2 ->
  (price row1 <= price row2)%Q ->
  exists s1 s2,
    final_score cosine_similarity row1 query_embedding requested_amenities (Some mp) = Ok s1
    /\ final_score cosine_similarity row2 query_embedding requested_amenities (Some mp) = Ok s2
    /\ (s2 <= s1)%Q.
Proof.
  intros Hmp He Hf Hp.
  destruct (final_score_formula cosine_similarity row1 query_embedding
              requested_amenities (Some mp)) as (s1 & Hs1 & E1);
    [by intros ? [= <-]|].
  destruct (final_score_formula cosine_similarity row2 query_embedding
              requested_amenities (Some mp)) as (s2 & Hs2 & E2);
    [by intros ? [= <-]|].
  exists s1, s2. split; [done|]. split; [done|].
  unfold spec_score, spec_price_penalty in *. rewrite He in E1.
  assert (Er : spec_amenity_ratio row1 requested_amenities
               = spec_amenity_ratio row2 requested_amenities).
  { unfold spec_amenity_ratio, row_get. by rewrite Hf. }
  rewrite Er in E1.
  assert (Hm : (Qmax 0 ((price row1 - mp) / mp) <= Qmax 0 ((price row2 - mp) / mp))%Q).
  { apply Q.max_le_compat_l. unfold Qdiv. apply Qmult_le_compat_r; [lra|].
    apply Qlt_le_weak. by apply Qinv_lt_0_compat. }
  lra.
Qed.

Lemma dearer_not_higher_witness :
  exists s1 s2,
    final_score Sample.similarity Sample.attic [] ["wifi"] (Some (60 # 1)) = Ok s1
    /\ final_score Sample.similarity Sample.loft [] ["wifi"] (Some (60 # 1)) = Ok s2
    /\ (s2 <= s1)%Q.
Proof.
  apply (dearer_not_higher Sample.similarity Sample.attic Sample.loft [] ["wifi"] (60 # 1)).
  - reflexivity.
  - reflexivity.
  - reflexivity.
  - vm_compute. discriminate.
Defined.

(* ================================================================== *)
(** * Further properties of the search *)

Lemma fst_scored_rows cs eq keys q df :
  fst <$> scored_rows cs eq keys q df = surviving q df.
Proof.
  unfold scored_rows. induction (surviving q df) as [|row l IH]; [done|].
  cbn [map]. rewrite fmap_cons. cbn [fst]. by rewrite IH.
Qed.

Lemma length_scored_rows cs eq keys q df :
  length (scored_rows cs eq keys q df) = length (surviving q df).
Proof. unfold scored_rows. apply length_map. Qed.

Lemma all_matches_returned cs eq sort keys q df :
  sort_contract sort ->
  (length (surviving q df) <= 10)%nat ->
  fst <$> take 10 (sort (scored_rows cs eq keys q df)) ≡ₚ surviving q df.
Proof.
  intros [Hperm _] Hlen. rewrite take_ge.
  - by rewrite Hperm, fst_scored_rows.
  - by rewrite (Permutation_length (Hperm _)), length_scored_rows.
Qed.

Lemma length_returned cs eq sort keys q df :
  sort_contract sort ->
  length (take 10 (sort (scored_rows cs eq keys q df)))
  = Nat.min 10 (length (surviving q df)).
Proof.
  intros [Hperm _]. rewrite length_take. f_equal.
  by rewrite (Permutation_length (Hperm _)), length_scored_rows.
Qed.

(** X13: inside [search_listings] the price term of the score is always
    zero, because the price filter runs first: when some row survives the
    filters, the search returns, and every returned score is the semantic
    similarity plus the amenity ratio. *)
Theorem search_scores_unpenalised (cosine_similarity : embedding -> embedding -> Q)
    (embed_query : string -> embedding)
    (sort_values : list ScoredListing -> list ScoredListing)
    (df : list Listing) (q : string) (keys : list string) :
  sort_contract sort_values ->
  surviving q df <> [] ->
  exists i rows,
    extract_intent q = Ok i
    /\ search_listings cosine_similarity embed_query sort_values df q keys = Ok rows
    /\ forall r, r ∈ rows ->
         (score r ==
          cosine_similarity (description_embedding (fst r)) (embed_query q)
          + spec_amenity_ratio (fst r) (requested keys i))%Q.
Proof.
  intros Hsort Hne. rewrite extract_intent_ok, search_listings_some by done.
  eexists _, _. split; [reflexivity|]. split; [reflexivity|].
  intros r Hr. apply (returned_rows _ _ _ _ _ _ _ Hsort) in Hr as (row & Hrow & ->).
  cbn [fst score snd]. unfold unpenalised. rewrite amenity_sim_spec.
  unfold requested_of, requested. cbn [amenities]. ring.
Qed.

Lemma search_scores_unpenalised_witness :
  exists i rows,
    extract_intent "flat in Rome under 100" = Ok i
    /\ search_listings Sample.similarity Sample.embed sort_stable
         [Sample.loft; Sample.attic; Sample.hut] "flat in Rome under 100" key_amenities
       = Ok rows
    /\ forall r, r ∈ rows ->
         (score r ==
          Sample.similarity (description_embedding (fst r))
            (Sample.embed "flat in Rome under 100")
          + spec_amenity_ratio (fst r) (requested key_amenities i))%Q.
Proof.
  apply (search_scores_unpenalised Sample.similarity Sample.embed sort_stable
           [Sample.loft; Sample.attic; Sample.hut] "flat in Rome under 100" key_amenities).
  - exact sort_stable_contract.
  - vm_compute. discriminate.
Defined.

Lemma sorted_app_desc (l1 l2 : list ScoredListing) a b :
  StronglySorted desc (l1 ++ l2) -> a ∈ l1 -> b ∈ l2 -> desc a b.
Proof.
  induction l1 as [|x l1 IH]; intros Hs Ha Hb.
  - by apply elem_of_nil in Ha.
  - simpl in Hs. apply StronglySorted_inv in Hs as [Hs Hx].
    apply elem_of_cons in Ha as [->|Ha].
    + rewrite Forall_forall in Hx. apply Hx. apply elem_of_app. by right.
    + by apply IH.
Qed.

(** X14: when some row survives the filters, the rows returned are the ten
    best: together with the rows cut off they are the scored surviving
    rows, and no row cut off has a larger score than a returned one. *)
Theorem search_returns_best (cosine_similarity : embedding -> embedding -> Q)
    (embed_query : string -> embedding)
    (sort_values : list ScoredListing -> list ScoredListing)
    (df : list Listing) (q : string) (keys : list string) :
  sort_contract sort_values ->
  surviving q df <> [] ->
  exists rows cut,
    search_listings cosine_similarity embed_query sort_values df q keys = Ok rows
    /\ rows ++ cut ≡ₚ scored_rows cosine_similarity embed_query keys q df
    /\ forall a b, a ∈ rows -> b ∈ cut -> (score b <= score a)%Q.
Proof.
  intros [Hperm Hdesc] Hne. rewrite search_listings_some by done.
  set (S := sort_values (scored_rows cosine_similarity embed_query keys q df)).
  exists (take 10 S), (drop 10 S). split; [reflexivity|]. split.
  - rewrite take_drop. apply Hperm.
  - intros a b Ha Hb.
    apply (sorted_app_desc (take 10 S) (drop 10 S) a b); [|done..].
    rewrite take_drop. apply Hdesc.
Qed.

Lemma search_returns_best_witness :
  exists rows cut,
    search_listings Sample.similarity Sample.embed sort_stable
      Sample.eleven "cozy studio" key_amenities = Ok rows
    /\ rows ++ cut ≡ₚ scored_rows Sample.similarity Sample.embed key_amenities
                        "cozy studio" Sample.eleven
    /\ forall a b, a ∈ rows -> b ∈ cut -> (score b <= score a)%Q.
Proof.
  apply (search_returns_best Sample.similarity Sample.embed sort_stable
           Sample.eleven "cozy studio" key_amenities).
  - exact sort_stable_contract.
  - vm_compute. discriminate.
Defined.

(** X15: when between one and ten rows survive the filters, every one of
    them is returned, once. *)
Theorem search_returns_all_matches (cosine_similarity : embedding -> embedding -> Q)
    (embed_query : string -> embedding)
    (sort_values : list ScoredListing -> list ScoredListing)
    (df : list Listing) (q : string) (keys : list string) :
  sort_contract sort_values ->
  surviving q df <> [] ->
  (length (surviving q df) <= 10)%nat ->
  exists rows,
    search_listings cosine_similarity embed_query sort_values df q keys = Ok rows
    /\ fst <$> rows ≡ₚ surviving q df.
Proof.
  intros Hsort Hne Hlen. rewrite search_listings_some by done.
  eexists. split; [reflexivity|]. by apply all_matches_returned.
Qed.

Lemma search_returns_all_matches_witness :
  exists rows,
    search_listings Sample.similarity Sample.embed sort_stable
      [Sample.loft; Sample.attic; Sample.hut] "flat in Rome under 100" key_amenities
    = Ok rows
    /\ fst <$> rows
       ≡ₚ surviving "flat in Rome under 100" [Sample.loft; Sample.attic; Sample.hut].
Proof.
  apply (search_returns_all_matches Sample.similarity Sample.embed sort_stable
           [Sample.loft; Sample.attic; Sample.hut] "flat in Rome under 100" key_amenities).
  - exact sort_stable_contract.
  - vm_compute. discriminate.
  - vm_compute. lia.
Defined.

Lemma surviving_sublist q df : surviving q df `sublist_of` df.
Proof.
  unfold surviving, filter_price, filter_location.
  destruct (max_price_of q); [etrans; [apply sublist_filter|]|];
    (destruct (clean_location (location_of q)) as [l|]; [|done];
     destruct (Str.truthy l); [apply sublist_filter|done]).
Qed.

(** X16: the search invents no row: whenever it returns, the listings
    returned are listings of the table, none more often than it occurs
    there, at least one and at most ten. *)
Theorem search_returns_table_rows (cosine_similarity : embedding -> embedding -> Q)
    (embed_query : string -> embedding)
    (sort_values : list ScoredListing -> list ScoredListing)
    (df : list Listing) (q : string) (keys : list string)
    (rows : list ScoredListing) :
  sort_contract sort_values ->
  search_listings cosine_similarity embed_query sort_values df q keys = Ok rows ->
  fst <$> rows ⊆+ df /\ (1 <= length rows <= 10)%nat.
Proof.
  intros Hsort Hrows. apply search_listings_Ok in Hrows as [Hne ->]. split.
  - destruct Hsort as [Hperm _].
    etrans; [apply fmap_submseteq, submseteq_take|].
    rewrite Hperm, fst_scored_rows.
    apply sublist_submseteq, surviving_sublist.
  - rewrite length_returned by done.
    destruct (surviving q df); [done|]. cbn [length]. lia.
Qed.

Lemma search_returns_table_rows_witness :
  fst <$> take 10 (sort_stable
                     (scored_rows Sample.similarity Sample.embed key_amenities
                        "cozy studio" Sample.eleven))
  ⊆+ Sample.eleven
  /\ (1 <= length (take 10 (sort_stable
                     (scored_rows Sample.similarity Sample.embed key_amenities
                        "cozy studio" Sample.eleven))) <= 10)%nat.
Proof.
  apply (search_returns_table_rows Sample.similarity Sample.embed sort_stable
           Sample.eleven "cozy studio" key_amenities).
  - exact sort_stable_contract.
  - vm_compute. reflexivity.
Defined.

Lemma no_keywords_no_filters q df :
  ~ Substring_ci "in" q -> ~ Substring_ci "at" q ->
  ~ Substring_ci "under" q -> ~ Substring_ci "below" q -> ~ Substring_ci "max" q ->
  surviving q df = df.
Proof.
  intros Hin Hat Hu Hb Hm.
  pose proof (location_needs_keyword q) as Hl.
  pose proof (price_needs_keyword q) as Hp.
  unfold surviving.
  destruct (location_of q); [exfalso; destruct Hl; [done|tauto..]|].
  destruct (max_price_of q); [exfalso; destruct Hp as [|[|]]; [done|tauto..]|].
  reflexivity.
Qed.

(** X17: a query that contains none of the words "in", "at", "under",
    "below" and "max", case ignored, filters nothing: on a table that is
    not empty the whole table is scored, and a table of at most ten rows
    is returned in full. *)
Theorem search_without_keywords (cosine_similarity : embedding -> embedding -> Q)
    (embed_query : string -> embedding)
    (sort_values : list ScoredListing -> list ScoredListing)
    (df : list Listing) (q : string) (keys : list string) :
  sort_contract sort_values ->
  df <> [] ->
  ~ Substring_ci "in" q -> ~ Substring_ci "at" q ->
  ~ Substring_ci "under" q -> ~ Substring_ci "below" q -> ~ Substring_ci "max" q ->
  exists rows,
    search_listings cosine_similarity embed_query sort_values df q keys = Ok rows
    /\ length rows = Nat.min 10 (length df)
    /\ ((length df <= 10)%nat -> fst <$> rows ≡ₚ df).
Proof.
  intros Hsort Hdf Hin Hat Hu Hb Hm.
  pose proof (no_keywords_no_filters q df Hin Hat Hu Hb Hm) as Hall.
  rewrite search_listings_some by (by rewrite Hall).
  eexists. split; [reflexivity|]. split.
  - by rewrite length_returned, Hall.
  - intros Hle. rewrite <- Hall at 2.
    apply all_matches_returned; [done|]. by rewrite Hall.
Qed.

Lemma search_without_keywords_witness :
  exists rows,
    search_listings Sample.similarity Sample.embed sort_stable
      [Sample.loft; Sample.hut] "cozy studio with a balcony" key_amenities = Ok rows
    /\ length rows = Nat.min 10 (length [Sample.loft; Sample.hut])
    /\ ((length [Sample.loft; Sample.hut] <= 10)%nat ->
        fst <$> rows ≡ₚ [Sample.loft; Sample.hut]).
Proof.
  apply (search_without_keywords Sample.similarity Sample.embed sort_stable
           [Sample.loft; Sample.hut] "cozy studio with a balcony" key_amenities).
  - exact sort_stable_contract.
  - discriminate.
  - rewrite <- contains_ci. vm_compute. discriminate.
  - rewrite <- contains_ci. vm_compute. discriminate.
  - rewrite <- contains_ci. vm_compute. discriminate.
  - rewrite <- contains_ci. vm_compute. discriminate.
  - rewrite <- contains_ci. vm_compute. discriminate.
Defined.

(** X21: the search never returns an empty result.  When no row survives
    the filters (an empty table, no listing in the city asked for, none
    within the price ceiling), it raises ValueError; in every other case it
    returns at least one row.  It raises nothing else. *)
Theorem search_empty_is_error (cosine_similarity : embedding -> embedding -> Q)
    (embed_query : string -> embedding)
    (sort_values : list ScoredListing -> list ScoredListing)
    (df : list Listing) (q : string) (keys : list string) :
  sort_contract sort_values ->
  (surviving q df = [] ->
   search_listings cosine_similarity embed_query sort_values df q keys
   = Raise ValueError)
  /\ (surviving q df <> [] ->
      exists rows,
        search_listings cosine_similarity embed_query sort_values df q keys = Ok rows
        /\ rows <> []).
Proof.
  intros Hsort. split; [apply search_listings_none|].
  intros Hne. rewrite search_listings_some by done. eexists. split; [reflexivity|].
  intros E. apply (f_equal length) in E. rewrite length_returned in E by done.
  destruct (surviving q df); [done|]. cbn [length] in E. lia.
Qed.

Lemma search_empty_is_error_witness :
  search_listings Sample.similarity Sample.embed sort_stable
    [Sample.loft; Sample.attic] "flat in Paris" key_amenities
  = Raise ValueError.
Proof.
  apply (search_empty_is_error Sample.similarity Sample.embed sort_stable
           [Sample.loft; Sample.attic] "flat in Paris" key_amenities).
  - exact sort_stable_contract.
  - vm_compute. reflexivity.
Defined.

(* ================================================================== *)
(** * The dashboard *)

Lemma fst_zip_seq {A} (l : list A) : fst <$> zip l (seq 1 (length l)) = l.
Proof. apply fst_zip. by rewrite length_seq. Qed.

(** X18: when the search returns, the dashboard shows the first
    [max_results] rows of its result.  As the search returns at most ten
    rows, never more than ten are shown, and a setting of ten or more (the
    slider goes up to 20) shows the search result unchanged. *)
Theorem slider_shows_at_most_ten (cosine_similarity : embedding -> embedding -> Q)
    (embed_query : string -> embedding)
    (sort_values : list ScoredListing -> list ScoredListing)
    (all_listings : list Listing) (q : string) (max_results : nat)
    (rows : list ScoredListing) :
  search_listings cosine_similarity embed_query sort_values all_listings q key_amenities
  = Ok rows ->
  exists ranked,
    top_results cosine_similarity embed_query sort_values all_listings q max_results
    = Ok ranked
    /\ fst <$> ranked = take max_results rows
    /\ (length ranked <= 10)%nat
    /\ ((10 <= max_results)%nat -> fst <$> ranked = rows).
Proof.
  intros Hrows. unfold top_results. rewrite Hrows. cbn [bind].
  apply search_listings_Ok in Hrows as [_ ->].
  eexists. split; [reflexivity|].
  rewrite fst_zip_seq. split; [reflexivity|]. split.
  - unfold RankedListing. rewrite <- (length_fmap fst), fst_zip_seq, !length_take. lia.
  - intros Hm. apply take_ge. rewrite length_take. lia.
Qed.

Lemma slider_shows_at_most_ten_witness :
  exists rows ranked,
    search_listings Sample.similarity Sample.embed sort_stable Sample.eleven
      "cozy studio" key_amenities = Ok rows
    /\ top_results Sample.similarity Sample.embed sort_stable Sample.eleven
         "cozy studio" 20 = Ok ranked
    /\ fst <$> ranked = rows.
Proof.
  eexists. 
  assert (Hrows : search_listings Sample.similarity Sample.embed sort_stable
                    Sample.eleven "cozy studio" key_amenities
                  = Ok (take 10 (sort_stable
                          (scored_rows Sample.similarity Sample.embed key_amenities
                             "cozy studio" Sample.eleven))))
    by (vm_compute; reflexivity).
  destruct (slider_shows_at_most_ten Sample.similarity Sample.embed sort_stable
              Sample.eleven "cozy studio" 20 _ Hrows) as (ranked & H2 & _ & _ & H5).
  exists ranked. split; [exact Hrows|]. split; [exact H2|]. apply H5. lia.
Defined.

(** X19: the rank column counts 1, 2, 3, ... down the displayed rows, and
    with a setting of at least one result (the slider starts at 5) there
    is at least one displayed row whenever the search action gets that
    far: the test for an empty result never succeeds, because
    [search_listings] raises instead of returning no row. *)
Theorem ranks_count_from_one (cosine_similarity : embedding -> embedding -> Q)
    (embed_query : string -> embedding)
    (sort_values : list ScoredListing -> list ScoredListing)
    (all_listings : list Listing) (q : string) (max_results : nat)
    (ranked : list RankedListing) :
  sort_contract sort_values ->
  (1 <= max_results)%nat ->
  top_results cosine_similarity embed_query sort_values all_listings q max_results
  = Ok ranked ->
  ranked <> [] /\ forall k r, ranked !! k = Some r -> rank r = S k.
Proof.
  intros Hsort Hm. unfold top_results.
  destruct (search_listings _ _ _ _ _ _) as [rows|e] eqn:Hrows; [|done].
  cbn [bind]. intros [= <-].
  apply search_listings_Ok in Hrows as [Hne ->]. split.
  - intros E. apply (f_equal (fmap fst)) in E. rewrite fst_zip_seq in E.
    apply (f_equal length) in E. rewrite length_take, length_returned in E by done.
    change (length (fst <$> [])) with 0%nat in E.
    destruct (surviving q all_listings); [done|]. cbn [length] in E. lia.
  - intros k [x n] Hr.
    apply lookup_zip_with_Some in Hr as (x' & n' & [= -> ->] & Hx & Hn).
    apply lookup_seq in Hn as [-> _]. done.
Qed.

Lemma ranks_count_from_one_witness :
  exists ranked,
    top_results Sample.similarity Sample.embed sort_stable
      [Sample.loft; Sample.hut] "cozy studio with wifi" 5 = Ok ranked
    /\ ranked <> []
    /\ forall k r, ranked !! k = Some r -> rank r = S k.
Proof.
  eexists. split; [vm_compute; reflexivity|].
  apply (ranks_count_from_one Sample.similarity Sample.embed sort_stable
           [Sample.loft; Sample.hut] "cozy studio with wifi" 5).
  - exact sort_stable_contract.
  - lia.
  - vm_compute. reflexivity.
Defined.

(** X20: the cleaning step of [search_listings] never changes an extracted
    location: such a location is made of letters, so there is no white
    space or quote character for it to strip. *)
Theorem clean_location_no_effect (q : string) (i : Intent) :
  extract_intent q = Ok i -> clean_location (location i) = location i.
Proof.
  rewrite extract_intent_ok. intros [= <-]. cbn [location].
  destruct (location_of q) as [loc|] eqn:E; [|done].
  apply clean_location_letters. by apply location_letters in E.
Qed.

Lemma clean_location_no_effect_witness :
  clean_location (Some "Rome") = Some "Rome".
Proof.
  apply (clean_location_no_effect "flat in Rome under 150"
           {| location := Some "Rome"; max_price := Some 150%Q; amenities := [] |}).
  vm_compute. reflexivity.
Defined.
